(** * rsmt2d: repair of an extended data square

    A shallow embedding of [extendeddatacrossword.go]: the repair entry
    point [RepairExtendedDataSquare], the pre-repair sanity check, the root
    verifier and the crossword solver, followed by the properties of the
    specification that concern them.

    Conventions of the embedding.
    - A Go [[]byte] is an [option (list byte)]: [None] is the nil slice.
      [len] and [bytes.Equal] do not tell nil from the empty slice, the
      comparison [== nil] does.
    - [uint] and [int] indices are [nat]: no index of the program leaves the
      range of a machine integer for a square that fits in memory.
    - A Go function returning [(T, error)] returns a [result T]; a run-time
      panic (index out of range) is the third outcome [Panic].
    - [for { ... }] of the solver takes fuel: one unit per sweep. *)

From Stdlib Require Import Strings.Byte.
From stdpp Require Import base list strings gmap pretty.

Local Open Scope nat_scope.

(** ** Byte slices *)

Abbreviation bytes := (list byte).

(** A Go [[]byte]; [None] is nil. *)
Abbreviation chunk := (option (list byte)).

#[global] Instance byte_eq_decision : EqDecision byte := Byte.byte_eq_dec.

Definition content (c : chunk) : list byte := default [] c.

(** [len(c)] *)
Definition len (c : chunk) : nat := length (content c).

(** [bytes.Equal(a, b)]: a nil argument is equivalent to an empty slice. *)
Definition bytesEqual (a b : chunk) : bool := bool_decide (content a = content b).

(** [c == nil] *)
Definition isNil (c : chunk) : bool :=
  match c with
  | None => true
  | Some _ => false
  end.

(** Modelled from the spec: [flattenChunks] is not in the sources; the sanity
    check "byte-compares" two chunk vectors through it, so it is the
    concatenation of the chunks' bytes. *)
Definition flattenChunks (chunks : list chunk) : chunk :=
  Some (mjoin (content <$> chunks)).

(** ** Errors and results *)

Inductive Mode : Type :=
| row
| column.

#[global] Instance Mode_eq_decision : EqDecision Mode.
Proof. solve_decision. Defined.

(** The values of Go's [error] that the package produces.  [ErrBadRootInput]
    stands for the value of
    [fmt.Errorf("bad root input: row %d expected %v got %v", ...)] (and the
    same with [col]); [ErrorString] for any other [errors.New] value, those
    of the codec included. *)
Inductive error : Type :=
| ErrUnrepairableDataSquare
| ErrByzantineRow (RowNumber : nat)
| ErrByzantineColumn (ColumnNumber : nat)
| ErrBadRootInput (mode : Mode) (i : nat) (expected got : chunk)
| ErrorString (msg : string).

Definition isByzantine (e : error) : bool :=
  match e with
  | ErrByzantineRow _ | ErrByzantineColumn _ => true
  | _ => false
  end.

(** The byzantine error of an axis. *)
Definition ErrByzantine (mode : Mode) (i : nat) : error :=
  match mode with
  | row => ErrByzantineRow i
  | column => ErrByzantineColumn i
  end.

Inductive result (A : Type) : Type :=
| Ok (a : A)
| Err (e : error)
| Panic.

Arguments Ok {A} a.
Arguments Err {A} e.
Arguments Panic {A}.

Definition bind {A B : Type} (r : result A) (k : A -> result B) : result B :=
  match r with
  | Ok a => k a
  | Err e => Err e
  | Panic => Panic
  end.

Notation "'do' x <- r ; k" := (bind r (fun x => k))
  (at level 10, x name, r at level 100, k at level 200).

(** [for _, a := range l { s, err = f(a, s); if err != nil { return err } }] *)
Fixpoint foldR {A S : Type} (f : A -> S -> result S) (l : list A) (s : S) : result S :=
  match l with
  | [] => Ok s
  | a :: l' => do s' <- f a s; foldR f l' s'
  end.

(** The same loop, collecting one value per round. *)
Fixpoint mapR {A B : Type} (f : A -> result B) (l : list A) : result (list B) :=
  match l with
  | [] => Ok []
  | a :: l' => do b <- f a; do bs <- mapR f l'; Ok (b :: bs)
  end.

(** [s[i]] on a slice: a panic out of range. *)
Definition index {A : Type} (s : list A) (i : nat) : result A :=
  match s !! i with
  | Some x => Ok x
  | None => Panic
  end.

(** ** The presence bit matrix *)

(** Modelled from the spec: the type [bitMatrix] and its methods are not in
    the sources.  Section 4.1: "a width x width boolean grid supporting point
    set/get, flat-index set (linear index over row-major order), and four
    axis queries".  Out of its range a query answers [false] and a set does
    nothing (the spec leaves both undefined). *)
Record bitMatrix : Type := {
  mask : list bool;
  squareSize : nat
}.

Definition newBitMatrix (squareSize : nat) : bitMatrix :=
  {| mask := replicate (squareSize * squareSize) false; squareSize := squareSize |}.

Definition SetFlat (bm : bitMatrix) (idx : nat) : bitMatrix :=
  {| mask := <[idx := true]> (mask bm); squareSize := squareSize bm |}.

Definition Get (bm : bitMatrix) (r c : nat) : bool :=
  default false (mask bm !! (r * squareSize bm + c)).

(** The method [Set(row, col)] ([Set] is reserved in Rocq). *)
Definition SetBit (bm : bitMatrix) (r c : nat) : bitMatrix :=
  SetFlat bm (r * squareSize bm + c).

Definition RowRangeIsOne (bm : bitMatrix) (r lo hi : nat) : bool :=
  forallb (fun c => Get bm r c) (seq lo (hi - lo)).

Definition ColRangeIsOne (bm : bitMatrix) (c lo hi : nat) : bool :=
  forallb (fun r => Get bm r c) (seq lo (hi - lo)).

Definition RowIsOne (bm : bitMatrix) (r : nat) : bool :=
  RowRangeIsOne bm r 0 (squareSize bm).

Definition ColumnIsOne (bm : bitMatrix) (c : nat) : bool :=
  ColRangeIsOne bm c 0 (squareSize bm).

(** ** Trees and codecs: the external capabilities *)

Record SquareIndex : Type := {
  Axis : nat;
  Cell : nat
}.

(** The [Tree] interface behind [TreeConstructorFn]: [Push] accumulates a
    leaf, [Root] gives the commitment. *)
Class TreeConstructorFn : Type := {
  Tree : Type;
  createTreeFn : Tree;
  Push : Tree -> chunk -> SquareIndex -> Tree;
  Root : Tree -> chunk
}.

(** The package-level [Encode(data, codec)] and [Decode(data, codec)], which
    are not in the sources, and the codec's [maxChunks]. *)
Class Codecs (CodecType : Type) : Type := {
  Encode : list chunk -> CodecType -> result (list chunk);
  Decode : list chunk -> CodecType -> result (list chunk);
  maxChunks : CodecType -> nat
}.

(** ** The program *)

Section Repair.

Context {CodecType : Type} {codecs : Codecs CodecType} {treeFn : TreeConstructorFn}.

(** *** The extended data square *)

(** Modelled from the spec: [ExtendedDataSquare], its accessors and
    [ImportExtendedDataSquare] are not in the sources.  Section 3: "a
    width x width grid of fixed-size byte chunks, where
    width = 2 x originalDataWidth"; section 6: "Row(i), Column(i) return the
    current width-length chunk vector for axis i", "setCell(row, col, chunk)
    overwrites one cell; slicing operations return sub-ranges of a
    row/column".  The grid is kept row by row. *)
Record ExtendedDataSquare : Type := {
  squareRow : list (list chunk);
  width : nat;
  originalDataWidth : nat;
  codec : CodecType
}.

Definition Row (eds : ExtendedDataSquare) (i : nat) : list chunk :=
  default [] (squareRow eds !! i).

Definition getCell (eds : ExtendedDataSquare) (r c : nat) : chunk :=
  default None (Row eds r !! c).

Definition Column (eds : ExtendedDataSquare) (i : nat) : list chunk :=
  (fun r => getCell eds r i) <$> seq 0 (width eds).

(** [rowSlice(x, y, length)]: [length] chunks of row [x] from column [y]. *)
Definition rowSlice (eds : ExtendedDataSquare) (x y length : nat) : list chunk :=
  take length (drop y (Row eds x)).

(** [columnSlice(x, y, length)]: [length] chunks of column [y] from row [x]. *)
Definition columnSlice (eds : ExtendedDataSquare) (x y length : nat) : list chunk :=
  take length (drop x (Column eds y)).

Definition setCell (eds : ExtendedDataSquare) (x y : nat) (newChunk : chunk)
  : ExtendedDataSquare :=
  {| squareRow := <[x := <[y := newChunk]> (Row eds x)]> (squareRow eds);
     width := width eds;
     originalDataWidth := originalDataWidth eds;
     codec := codec eds |}.

(** The commitment over one axis vector: every chunk is pushed, in order, to
    a new tree, "tagged with its position along the axis and the axis
    index". *)
Definition pushShares (i : nat) (shares : list chunk) : Tree :=
  foldl (fun tree '(cell, d) => Push tree d {| Axis := i; Cell := cell |})
        createTreeFn (zip (seq 0 (length shares)) shares).

Definition axisRoot (i : nat) (shares : list chunk) : chunk :=
  Root (pushShares i shares).

(** Modelled from the spec: "RowRoot(i), ColRoot(i) return previously-cached
    or freshly computed roots"; the fresh computation is the one of the
    verifier. *)
Definition RowRoot (eds : ExtendedDataSquare) (i : nat) : chunk :=
  axisRoot i (Row eds i).

Definition ColRoot (eds : ExtendedDataSquare) (i : nat) : chunk :=
  axisRoot i (Column eds i).

(** [int(math.Ceil(math.Sqrt(float64(n))))]; the floating-point computation
    is exact for every length below [2^52]. *)
Definition ceilSqrt (n : nat) : nat :=
  let s := Nat.sqrt n in
  if s * s =? n then s else S s.

(** Modelled from the spec: the import builds the [width x width] grid from
    the flat row-major list, [width := ceil(sqrt(len(chunks)))].  It refuses
    what the data model excludes: a list that does not fill the square, an
    odd width ([width = 2 x originalDataWidth]), chunks of different sizes
    ("all chunks in the square have identical byte length") and more chunks
    than the codec supports ("a construction-time fatal error"). *)
Definition ImportExtendedDataSquare (data : list chunk) (codec : CodecType)
  : result ExtendedDataSquare :=
  let w := ceilSqrt (length data) in
  if negb (w * w =? length data) then
    Err (ErrorString "number of chunks must be a square number")
  else if maxChunks codec <? length data then
    Err (ErrorString "number of chunks exceeds the maximum")
  else if negb (forallb (fun d => len d =? len (default None (head data))) data) then
    Err (ErrorString "all chunks must be of equal size")
  else if Nat.odd w then
    Err (ErrorString "square width must be even")
  else
    Ok {| squareRow := (fun i => take w (drop (i * w) data)) <$> seq 0 w;
          width := w;
          originalDataWidth := w / 2;
          codec := codec |}.

(** *** Root verifier *)

Definition verifyAgainstRoots (rowRoots columnRoots : list chunk)
    (mode : Mode) (i : nat) (shares : list chunk) : result chunk :=
  let root := axisRoot i shares in
  match mode with
  | row =>
      do r <- index rowRoots i;
      if negb (bytesEqual root r) then Err (ErrByzantineRow i) else Ok root
  | column =>
      do r <- index columnRoots i;
      if negb (bytesEqual root r) then Err (ErrByzantineColumn i) else Ok root
  end.

(** *** Pre-repair sanity check *)

Definition noMissingData (input : list chunk) : bool :=
  forallb (fun d => negb (isNil d)) input.

(** The first two tests of a round of [prerepairSanityCheck], one per mode:
    "ensure that the roots are equal". *)
Definition checkRoot (rowRoots columnRoots : list chunk) (bitMask : bitMatrix)
    (eds : ExtendedDataSquare) (mode : Mode) (i : nat) : result unit :=
  match mode with
  | row =>
      if noMissingData (Row eds i) && RowIsOne bitMask i then
        do r <- index rowRoots i;
        if negb (bytesEqual r (RowRoot eds i))
        then Err (ErrBadRootInput row i r (RowRoot eds i)) else Ok tt
      else Ok tt
  | column =>
      if noMissingData (Column eds i) && ColumnIsOne bitMask i then
        do r <- index columnRoots i;
        if negb (bytesEqual r (ColRoot eds i))
        then Err (ErrBadRootInput column i r (ColRoot eds i)) else Ok tt
      else Ok tt
  end.

(** The data half and the parity half of an axis, as the sanity check
    slices them. *)
Definition dataSlice (eds : ExtendedDataSquare) (mode : Mode) (i : nat) : list chunk :=
  match mode with
  | row => rowSlice eds i 0 (originalDataWidth eds)
  | column => columnSlice eds 0 i (originalDataWidth eds)
  end.

Definition paritySlice (eds : ExtendedDataSquare) (mode : Mode) (i : nat) : list chunk :=
  match mode with
  | row => rowSlice eds i (originalDataWidth eds) (originalDataWidth eds)
  | column => columnSlice eds (originalDataWidth eds) i (originalDataWidth eds)
  end.

(** The last two tests of a round, one per mode: the parity of a complete
    axis is the encoding of its data. *)
Definition checkParity (bitMask : bitMatrix) (eds : ExtendedDataSquare)
    (mode : Mode) (i : nat) : result unit :=
  if match mode with
     | row => RowIsOne bitMask i
     | column => ColumnIsOne bitMask i
     end
  then
    do parityShares <- Encode (dataSlice eds mode i) (codec eds);
    if negb (bytesEqual (flattenChunks parityShares) (flattenChunks (paritySlice eds mode i)))
    then Err (ErrByzantine mode i) else Ok tt
  else Ok tt.

(** One round of the loop of [prerepairSanityCheck]: the root of row [i],
    the root of column [i], the parity of row [i], the parity of column
    [i]. *)
Definition sanityCheckAt (rowRoots columnRoots : list chunk) (bitMask : bitMatrix)
    (eds : ExtendedDataSquare) (i : nat) : result unit :=
  do _ <- checkRoot rowRoots columnRoots bitMask eds row i;
  do _ <- checkRoot rowRoots columnRoots bitMask eds column i;
  do _ <- checkParity bitMask eds row i;
  checkParity bitMask eds column i.

Definition prerepairSanityCheck (rowRoots columnRoots : list chunk) (bitMask : bitMatrix)
    (eds : ExtendedDataSquare) : result unit :=
  foldR (fun i _ => sanityCheckAt rowRoots columnRoots bitMask eds i) (seq 0 (width eds)) tt.

(** *** Crossword solver *)

(** What [solveCrossword] mutates in place (the square and the bit mask) and
    the two flags of the current sweep. *)
Record solverState : Type := {
  theSquare : ExtendedDataSquare;
  theMask : bitMatrix;
  solved : bool;
  progressMade : bool
}.

Definition isIncomplete (bitMask : bitMatrix) (mode : Mode) (i : nat) : bool :=
  match mode with
  | row => negb (RowIsOne bitMask i)
  | column => negb (ColumnIsOne bitMask i)
  end.

Definition isExtendedPartIncomplete (eds : ExtendedDataSquare) (bitMask : bitMatrix)
    (mode : Mode) (i : nat) : bool :=
  match mode with
  | row => negb (RowRangeIsOne bitMask i (originalDataWidth eds) (width eds))
  | column => negb (ColRangeIsOne bitMask i (originalDataWidth eds) (width eds))
  end.

(** "Prepare shares": entry [j] of [shares], nil unless the bit is set. *)
Definition prepareShare (eds : ExtendedDataSquare) (bitMask : bitMatrix)
    (mode : Mode) (i j : nat) : result chunk :=
  let '(r, c, vectorData) :=
    match mode with
    | row => (i, j, Row eds i)
    | column => (j, i, Column eds i)
    end in
  if Get bitMask r c then index vectorData j else Ok None.

Definition prepareShares (eds : ExtendedDataSquare) (bitMask : bitMatrix)
    (mode : Mode) (i : nat) : result (list chunk) :=
  mapR (prepareShare eds bitMask mode i) (seq 0 (width eds)).

(** The vector handed to the verifier: the decoded shares, followed by the
    re-encoded parity or by [shares[eds.width:]]. *)
Definition extendShares (eds : ExtendedDataSquare) (extendedPartIncomplete : bool)
    (shares rebuiltShares : list chunk) : result (list chunk) :=
  if extendedPartIncomplete then
    do rebuiltExtendedShares <- Encode rebuiltShares (codec eds);
    Ok (rebuiltShares ++ rebuiltExtendedShares)
  else
    Ok (rebuiltShares ++ drop (width eds) shares).

(** "Check that newly completed orthogonal vectors match their new merkle
    roots": one round of the loop over [j]. *)
Definition checkOrthogonal (rowRoots columnRoots : list chunk) (bitMask : bitMatrix)
    (mode : Mode) (i : nat) (rebuiltShares : list chunk) (j : nat) (_ : unit)
  : result unit :=
  match mode with
  | row =>
      if negb (Get bitMask i j) && ColumnIsOne bitMask j then
        match verifyAgainstRoots rowRoots columnRoots column j rebuiltShares with
        | Ok _ => Ok tt
        | Err _ => Err (ErrByzantineColumn j)
        | Panic => Panic
        end
      else Ok tt
  | column =>
      if negb (Get bitMask j i) && RowIsOne bitMask j then
        match verifyAgainstRoots rowRoots columnRoots row j rebuiltShares with
        | Ok _ => Ok tt
        | Err _ => Err (ErrByzantineRow j)
        | Panic => Panic
        end
      else Ok tt
  end.

(** "Set vector mask to true" *)
Definition setVectorMask (bitMask : bitMatrix) (mode : Mode) (i w : nat) : bitMatrix :=
  foldl (fun bm j =>
           match mode with
           | row => SetBit bm i j
           | column => SetBit bm j i
           end) bitMask (seq 0 w).

(** "Insert rebuilt shares into square." *)
Definition insertShares (eds : ExtendedDataSquare) (mode : Mode) (i : nat)
    (rebuiltShares : list chunk) : ExtendedDataSquare :=
  foldl (fun e '(p, s) =>
           match mode with
           | row => setCell e i p s
           | column => setCell e p i s
           end) eds (zip (seq 0 (length rebuiltShares)) rebuiltShares).

(** The body of the two nested loops of a sweep, for axis [i] of [mode]. *)
Definition solveAxis (rowRoots columnRoots : list chunk) (i : nat) (mode : Mode)
    (st : solverState) : result solverState :=
  let eds := theSquare st in
  if isIncomplete (theMask st) mode i then
    do shares <- prepareShares eds (theMask st) mode i;
    match Decode shares (codec eds) with
    | Panic => Panic
    | Err _ =>
        Ok {| theSquare := eds; theMask := theMask st;
              solved := false; progressMade := progressMade st |}
    | Ok decoded =>
        do rebuiltShares <-
          extendShares eds (isExtendedPartIncomplete eds (theMask st) mode i) shares decoded;
        do _ <- verifyAgainstRoots rowRoots columnRoots mode i rebuiltShares;
        do _ <- foldR (checkOrthogonal rowRoots columnRoots (theMask st) mode i rebuiltShares)
                  (seq 0 (width eds)) tt;
        Ok {| theSquare := insertShares eds mode i rebuiltShares;
              theMask := setVectorMask (theMask st) mode i (width eds);
              solved := solved st; progressMade := true |}
    end
  else Ok st.

(** The axes in the order of a sweep: ascending index, row before column. *)
Definition sweepAxes (w : nat) : list (nat * Mode) :=
  i ← seq 0 w; [(i, row); (i, column)].

(** One sweep: "Loop through every row and column, attempt to rebuild each
    row or column if incomplete". *)
Definition sweepOver (rowRoots columnRoots : list chunk) (axes : list (nat * Mode))
    (st : solverState) : result solverState :=
  foldR (fun '(i, mode) => solveAxis rowRoots columnRoots i mode) axes st.

Definition sweep (rowRoots columnRoots : list chunk) (eds : ExtendedDataSquare)
    (bitMask : bitMatrix) : result solverState :=
  sweepOver rowRoots columnRoots (sweepAxes (width eds))
    {| theSquare := eds; theMask := bitMask; solved := true; progressMade := false |}.

(** [solveCrossword]: the sweeps are repeated until the square is solved or
    a sweep makes no progress; [fuel] bounds their number and [None] says
    that it ran out.  The result carries the square and the mask as the
    solver leaves them. *)
Fixpoint solveCrossword (fuel : nat) (rowRoots columnRoots : list chunk)
    (eds : ExtendedDataSquare) (bitMask : bitMatrix)
  : option (result (ExtendedDataSquare * bitMatrix)) :=
  match fuel with
  | 0 => None
  | S fuel' =>
      match sweep rowRoots columnRoots eds bitMask with
      | Panic => Some Panic
      | Err e => Some (Err e)
      | Ok st =>
          if solved st then Some (Ok (theSquare st, theMask st))
          else if negb (progressMade st) then Some (Err ErrUnrepairableDataSquare)
          else solveCrossword fuel' rowRoots columnRoots (theSquare st) (theMask st)
      end
  end.

(** *** Repair entry point *)

(** The first loop: the bit mask of the present chunks and [chunkSize]. *)
Definition scanData (width : nat) (data : list chunk) : bitMatrix * nat :=
  foldl (fun '(bitMat, chunkSize) '(i, d) =>
           if negb (isNil d) then
             (SetFlat bitMat i, if chunkSize =? 0 then len d else chunkSize)
           else (bitMat, chunkSize))
        (newBitMatrix width, 0) (zip (seq 0 (length data)) data).

(** The second loop: every nil chunk becomes [chunkSize] zero bytes. *)
Definition fillData (chunkSize : nat) (data : list chunk) : list chunk :=
  (fun d => if isNil d then Some (replicate chunkSize x00) else d) <$> data.

(** [RepairExtendedDataSquare] returns the caller's [data] slice as the call
    leaves it, and the outcome ([None]: the solver ran out of fuel). *)
Definition RepairExtendedDataSquare (fuel : nat) (rowRoots columnRoots : list chunk)
    (data : list chunk) (codec : CodecType)
  : list chunk * option (result ExtendedDataSquare) :=
  let width := ceilSqrt (length data) in
  let '(bitMat, chunkSize) := scanData width data in
  if chunkSize =? 0 then (data, Some (Err ErrUnrepairableDataSquare))
  else
    let data := fillData chunkSize data in
    (data,
     match ImportExtendedDataSquare data codec with
     | Panic => Some Panic
     | Err e => Some (Err e)
     | Ok eds =>
         match prerepairSanityCheck rowRoots columnRoots bitMat eds with
         | Panic => Some Panic
         | Err e => Some (Err e)
         | Ok _ =>
             match solveCrossword fuel rowRoots columnRoots eds bitMat with
             | None => None
             | Some Panic => Some Panic
             | Some (Err e) => Some (Err e)
             | Some (Ok (eds', _)) => Some (Ok eds')
             end
         end
     end).

End Repair.

(** ** Error messages *)

(** [(e *ErrByzantineRow) Error()]: [fmt.Sprintf("byzantine row: %d", e.RowNumber)];
    [%d] prints the number in decimal. *)
Definition ErrByzantineRow_Error (RowNumber : nat) : string :=
  "byzantine row: " +:+ pretty RowNumber.

(** [(e *ErrByzantineColumn) Error()] *)
Definition ErrByzantineColumn_Error (ColumnNumber : nat) : string :=
  "byzantine column: " +:+ pretty ColumnNumber.

(** ** The codec registry ([codecs.go]) *)

Definition LeopardFF16 : string := "LeopardFF16".
Definition LeopardFF8 : string := "LeopardFF8".
Definition RSGF8 : string := "RSFG8".

Section Registry.

(** The non-nil values of the interface [Codec]; a value of the interface is
    an [option Codec], [None] being nil. *)
Variable Codec : Type.

(** The global map [codecs], passed explicitly: [make(map[string]Codec)] is
    the empty map, and an index expression [codecs[ct]] on a missing key
    gives nil. *)
Definition registerCodec (ct : string) (codec : option Codec)
    (codecs : gmap string (option Codec)) : result (gmap string (option Codec)) :=
  match codecs !! ct with
  | Some (Some _) => Panic
  | _ => Ok (<[ct := codec]> codecs)
  end.

Definition NewLeoRSFF16Codec (codecs : gmap string (option Codec)) : result (option Codec) :=
  match codecs !! LeopardFF16 with
  | Some codec => Ok codec
  | None => Panic
  end.

Definition NewLeoRSFF8Codec (codecs : gmap string (option Codec)) : result (option Codec) :=
  match codecs !! LeopardFF8 with
  | Some codec => Ok codec
  | None => Panic
  end.

End Registry.

Arguments registerCodec {Codec} ct codec codecs.
Arguments NewLeoRSFF16Codec {Codec} codecs.
Arguments NewLeoRSFF8Codec {Codec} codecs.

(** ** A concrete codec and tree

    The smallest instances of the two capabilities, to run the program on
    concrete squares.  The parity of a vector is a copy of its data (a
    repetition code: position [j] is recovered from share [j] or from share
    [j + k]); the codec [NoEncoder] decodes in the same way and cannot
    encode.  The root of a vector is the concatenation of its chunks. *)
Module Replica.

Inductive ReplicaCodec : Type :=
| Repetition
| NoEncoder.

Definition encode (data : list chunk) (cd : ReplicaCodec) : result (list chunk) :=
  match cd with
  | Repetition => Ok data
  | NoEncoder => Err (ErrorString "encoder not available")
  end.

Definition recover (shares : list chunk) (k j : nat) : result chunk :=
  match shares !! j with
  | Some (Some d) => Ok (Some d)
  | _ =>
      match shares !! (j + k) with
      | Some (Some d) => Ok (Some d)
      | _ => Err (ErrorString "too few shares to reconstruct")
      end
  end.

Definition decode (shares : list chunk) (_ : ReplicaCodec) : result (list chunk) :=
  mapR (recover shares (length shares / 2)) (seq 0 (length shares / 2)).

#[export] Instance codecs : Codecs ReplicaCodec :=
  {| Encode := encode; Decode := decode; maxChunks := fun _ => 128 * 128 |}.

#[export] Instance concatTree : TreeConstructorFn :=
  {| Tree := list byte;
     createTreeFn := [];
     Push := fun tree d _ => tree ++ content d;
     Root := fun tree => Some tree |}.

(** Chunks of one byte, and the roots of vectors of two of them. *)
Definition a : chunk := Some [x61].
Definition b : chunk := Some [x62].
Definition zero : chunk := Some [x00].
Definition aa : chunk := Some [x61; x61].
Definition ab : chunk := Some [x61; x62].
Definition ba : chunk := Some [x62; x61].
Definition zz : chunk := Some [x7a; x7a].

(** A square of width 2 with the given rows. *)
Definition square2 (cd : ReplicaCodec) (r0 r1 : list chunk) : ExtendedDataSquare :=
  {| squareRow := [r0; r1]; width := 2; originalDataWidth := 1; codec := cd |}.

(** A mask of width 2 with the given bits, row by row. *)
Definition mask2 (b00 b01 b10 b11 : bool) : bitMatrix :=
  {| mask := [b00; b01; b10; b11]; squareSize := 2 |}.

End Replica.

(** ** Notions used in the statements *)

(** The mask has one bit per cell. *)
Definition bmWf (bm : bitMatrix) : Prop :=
  length (mask bm) = squareSize bm * squareSize bm.

(** The cell [(r, c)] lies on axis [i] of [mode]. *)
Definition onAxis (mode : Mode) (i r c : nat) : Prop :=
  match mode with
  | row => r = i
  | column => c = i
  end.

(** [chunkSize] after the first loop: it is set by the first non-nil chunk
    that finds it zero. *)
Definition chunkSizeOf (data : list chunk) : nat :=
  foldl (fun chunkSize d =>
           if negb (isNil d) then (if chunkSize =? 0 then len d else chunkSize)
           else chunkSize) 0 data.

(** Every chunk of axis [i] of [mode] is present (not nil) in the caller's
    list. *)
Definition axisPresent (data : list chunk) (mode : Mode) (i : nat) : Prop :=
  forall j, j < ceilSqrt (length data) ->
    exists d, data !! (match mode with
                       | row => i * ceilSqrt (length data) + j
                       | column => j * ceilSqrt (length data) + i
                       end) = Some (Some d).

(** The number of [x] in [l] with [f x]. *)
Fixpoint countb (f : nat -> bool) (l : list nat) : nat :=
  match l with
  | [] => 0
  | x :: l' => (if f x then 1 else 0) + countb f l'
  end.

(** The number of axes (rows and columns) that the mask does not mark fully
    present. *)
Definition incompleteAxes (bm : bitMatrix) : nat :=
  countb (isIncomplete bm row) (seq 0 (squareSize bm))
  + countb (isIncomplete bm column) (seq 0 (squareSize bm)).

(** [bm'] knows every cell that [bm] knows. *)
Definition maskLe (bm bm' : bitMatrix) : Prop :=
  squareSize bm' = squareSize bm /\
  forall r c, r < squareSize bm -> c < squareSize bm ->
              Get bm r c = true -> Get bm' r c = true.

(** The cell at position [p] of axis [i] of [mode]. *)
Definition cellOf (mode : Mode) (i p : nat) : nat * nat :=
  match mode with
  | row => (i, p)
  | column => (p, i)
  end.

Section Notions.

Context {CodecType : Type} {codecs : Codecs CodecType} {treeFn : TreeConstructorFn}.

Local Abbreviation ExtendedDataSquare := (@ExtendedDataSquare CodecType).
Local Abbreviation solverState := (@solverState CodecType).

(** The square is [width] rows of [width] chunks. *)
Definition edsWf (eds : ExtendedDataSquare) : Prop :=
  length (squareRow eds) = width eds /\
  forall i, i < width eds -> length (Row eds i) = width eds.

(** The chunk vector of an axis. *)
Definition axisVector (eds : ExtendedDataSquare) (mode : Mode) (i : nat) : list chunk :=
  match mode with
  | row => Row eds i
  | column => Column eds i
  end.

(** Its root, as the square computes it. *)
Definition computedRoot (eds : ExtendedDataSquare) (mode : Mode) (i : nat) : chunk :=
  match mode with
  | row => RowRoot eds i
  | column => ColRoot eds i
  end.

(** The caller's roots for the axes of a mode. *)
Definition rootsOf (rowRoots columnRoots : list chunk) (mode : Mode) : list chunk :=
  match mode with
  | row => rowRoots
  | column => columnRoots
  end.

(** The root test that reports a mismatch on axis [i] of [mode] is the
    first test of the scan that does not pass. *)
Definition firstRootFailure (rowRoots columnRoots : list chunk) (bitMask : bitMatrix)
    (eds : ExtendedDataSquare) (mode : Mode) (i : nat) : Prop :=
  (forall k, k < i -> sanityCheckAt rowRoots columnRoots bitMask eds k = Ok tt) /\
  (mode = column -> checkRoot rowRoots columnRoots bitMask eds row i = Ok tt).

(** The same for the parity test on axis [i] of [mode]. *)
Definition firstParityFailure (rowRoots columnRoots : list chunk) (bitMask : bitMatrix)
    (eds : ExtendedDataSquare) (mode : Mode) (i : nat) : Prop :=
  (forall k, k < i -> sanityCheckAt rowRoots columnRoots bitMask eds k = Ok tt) /\
  checkRoot rowRoots columnRoots bitMask eds row i = Ok tt /\
  checkRoot rowRoots columnRoots bitMask eds column i = Ok tt /\
  (mode = column -> checkParity bitMask eds row i = Ok tt).

(** The state that [solveAxis] leaves after a decode failure. *)
Definition markUnsolved (st : solverState) : solverState :=
  {| theSquare := theSquare st; theMask := theMask st;
     solved := false; progressMade := progressMade st |}.

(** The state that it leaves after it has rebuilt the axis. *)
Definition commitAxis (st : solverState) (mode : Mode) (i : nat)
    (rebuiltShares : list chunk) : solverState :=
  {| theSquare := insertShares (theSquare st) mode i rebuiltShares;
     theMask := setVectorMask (theMask st) mode i (width (theSquare st));
     solved := solved st; progressMade := true |}.

(** The sweep as it stands after the axes [pre]: what holds of the state
    [st] with respect to the mask [bm0] at the start of the sweep. *)
Record sweepInv (w : nat) (bm0 : bitMatrix) (pre : list (nat * Mode))
    (st : solverState) : Prop := {
  inv_width : width (theSquare st) = w;
  inv_size : squareSize (theMask st) = w;
  inv_wf : bmWf (theMask st);
  inv_le : maskLe bm0 (theMask st);
  inv_progress : progressMade st = true ->
                 incompleteAxes (theMask st) < incompleteAxes bm0;
  inv_unsolved : solved st = false -> 0 < incompleteAxes bm0;
  inv_solved : solved st = true ->
               forall i mode, (i, mode) ∈ pre -> i < w ->
                              isIncomplete (theMask st) mode i = false
}.

(** The root test of the sanity check lets axis [i] of [mode] pass: if the
    axis has no missing data and is marked complete, the caller gave a root
    for it that equals the computed one. *)
Definition rootAccepted (rowRoots columnRoots : list chunk) (bitMask : bitMatrix)
    (eds : ExtendedDataSquare) (mode : Mode) (i : nat) : Prop :=
  noMissingData (axisVector eds mode i) = true ->
  isIncomplete bitMask mode i = false ->
  exists r, rootsOf rowRoots columnRoots mode !! i = Some r /\
            bytesEqual r (computedRoot eds mode i) = true.

(** The parity test lets it pass: if the axis is marked complete, its data
    half is encoded and the result byte-equals its parity half. *)
Definition parityAccepted (bitMask : bitMatrix) (eds : ExtendedDataSquare)
    (mode : Mode) (i : nat) : Prop :=
  isIncomplete bitMask mode i = false ->
  exists parityShares,
    Encode (dataSlice eds mode i) (codec eds) = Ok parityShares /\
    bytesEqual (flattenChunks parityShares) (flattenChunks (paritySlice eds mode i)) = true.

(** What an error [e] of the sanity check says of axis [i] of [mode]. *)
Definition sanityFailure (rowRoots columnRoots : list chunk)
    (eds : ExtendedDataSquare) (mode : Mode) (i : nat) (e : error) : Prop :=
  (exists r, rootsOf rowRoots columnRoots mode !! i = Some r /\
             bytesEqual r (computedRoot eds mode i) = false /\
             e = ErrBadRootInput mode i r (computedRoot eds mode i)) \/
  Encode (dataSlice eds mode i) (codec eds) = Err e \/
  (exists parityShares,
     Encode (dataSlice eds mode i) (codec eds) = Ok parityShares /\
     bytesEqual (flattenChunks parityShares) (flattenChunks (paritySlice eds mode i)) = false /\
     e = ErrByzantine mode i).


End Notions.

(** * Properties *)

(** ** Loops *)

Lemma forallb_seq (f : nat -> bool) (lo n : nat) :
  forallb f (seq lo n) = true <-> forall j, lo <= j < lo + n -> f j = true.
Proof.
  rewrite forallb_forall. split.
  - intros H j Hj. apply H, in_seq. lia.
  - intros H j Hj. apply H. apply in_seq in Hj. lia.
Qed.

Lemma foldR_app {A S : Type} (f : A -> S -> result S) (l1 l2 : list A) (s : S) :
  foldR f (l1 ++ l2) s = do s' <- foldR f l1 s; foldR f l2 s'.
Proof.
  revert s. induction l1 as [|a l1 IH]; intros s; simpl; [done|].
  destruct (f a s); simpl; auto.
Qed.

(** A loop whose rounds all pass, passes. *)
Lemma foldR_unit_ok {A : Type} (f : A -> result unit) (l : list A) :
  (forall a, a ∈ l -> f a = Ok tt) -> foldR (fun a _ => f a) l tt = Ok tt.
Proof.
  induction l as [|a l IH]; intros H; simpl; [done|].
  rewrite H by apply list_elem_of_here. simpl.
  apply IH. intros a' Ha'. apply H. by apply list_elem_of_further.
Qed.

(** A loop stops at its first round that does not pass. *)
Lemma foldR_unit_first {A : Type} (f : A -> result unit) (l1 l2 : list A) (a : A) :
  (forall a', a' ∈ l1 -> f a' = Ok tt) ->
  foldR (fun a _ => f a) (l1 ++ a :: l2) tt = do _ <- f a; foldR (fun a _ => f a) l2 tt.
Proof.
  intros H. rewrite foldR_app, (foldR_unit_ok f l1 H). simpl.
  by destruct (f a) as [[]| |].
Qed.

Lemma seq_split_at (w i : nat) :
  i < w -> seq 0 w = seq 0 i ++ i :: seq (S i) (w - S i).
Proof.
  intros Hi. replace w with (i + S (w - S i)) at 1 by lia.
  rewrite seq_app. done.
Qed.

(** ** The bit matrix *)

Lemma flat_index_lt (w r c : nat) : r < w -> c < w -> r * w + c < w * w.
Proof.
  intros Hr Hc. assert (S r * w <= w * w) by (apply Nat.mul_le_mono_r; lia).
  simpl in *. lia.
Qed.

Lemma flat_index_inj (w r c r' c' : nat) :
  c < w -> c' < w -> r * w + c = r' * w + c' -> r = r' /\ c = c'.
Proof.
  intros Hc Hc' E.
  assert (Hr : (r * w + c) / w = r)
    by (rewrite Nat.div_add_l by lia; rewrite Nat.div_small by lia; lia).
  assert (Hr' : (r' * w + c') / w = r')
    by (rewrite Nat.div_add_l by lia; rewrite Nat.div_small by lia; lia).
  rewrite E in Hr. assert (r = r') by congruence. subst r'. split; [done|lia].
Qed.

Lemma newBitMatrix_wf (w : nat) : bmWf (newBitMatrix w).
Proof. unfold bmWf. simpl. by rewrite length_replicate. Qed.

Lemma SetFlat_wf (bm : bitMatrix) (k : nat) : bmWf bm -> bmWf (SetFlat bm k).
Proof. unfold bmWf. simpl. by rewrite length_insert. Qed.

Lemma SetBit_wf (bm : bitMatrix) (r c : nat) : bmWf bm -> bmWf (SetBit bm r c).
Proof. apply SetFlat_wf. Qed.

Lemma Get_newBitMatrix (w r c : nat) : Get (newBitMatrix w) r c = false.
Proof.
  unfold Get. simpl. destruct (replicate (w * w) false !! (r * w + c)) as [b|] eqn:E; [|done].
  apply lookup_replicate in E as [-> _]. done.
Qed.

Lemma Get_SetBit (bm : bitMatrix) (r c r' c' : nat) :
  bmWf bm -> r < squareSize bm -> c < squareSize bm -> c' < squareSize bm ->
  Get (SetBit bm r c) r' c' = true <-> Get bm r' c' = true \/ (r' = r /\ c' = c).
Proof.
  intros Hwf Hr Hc Hc'. unfold Get, SetBit, SetFlat. simpl.
  pose proof (flat_index_lt _ _ _ Hr Hc) as Hlt. rewrite <- Hwf in Hlt.
  destruct (decide (r * squareSize bm + c = r' * squareSize bm + c')) as [E|NE].
  - rewrite <- E, list_lookup_insert_eq by done. simpl.
    apply flat_index_inj in E as [-> ->]; [|done..]. tauto.
  - rewrite list_lookup_insert_ne by done. split; [tauto|].
    intros [H|[-> ->]]; [done|]. done.
Qed.

Lemma setVectorMask_size (bm : bitMatrix) (mode : Mode) (i w : nat) :
  squareSize (setVectorMask bm mode i w) = squareSize bm.
Proof.
  unfold setVectorMask. generalize (seq 0 w) as js. intros js. revert bm.
  induction js as [|j js IH]; intros bm; simpl; [done|].
  rewrite IH. by destruct mode.
Qed.

Lemma setVectorMask_wf (bm : bitMatrix) (mode : Mode) (i w : nat) :
  bmWf bm -> bmWf (setVectorMask bm mode i w).
Proof.
  unfold setVectorMask. generalize (seq 0 w) as js. intros js. revert bm.
  induction js as [|j js IH]; intros bm Hwf; simpl; [done|].
  apply IH. destruct mode; by apply SetBit_wf.
Qed.

(** After "Set vector mask to true", the known cells are those known before
    and those of the axis. *)
Lemma Get_setVectorMask (bm : bitMatrix) (mode : Mode) (i r c : nat) :
  bmWf bm -> i < squareSize bm -> r < squareSize bm -> c < squareSize bm ->
  Get (setVectorMask bm mode i (squareSize bm)) r c = true
  <-> Get bm r c = true \/ onAxis mode i r c.
Proof.
  intros Hwf Hi Hr Hc. unfold setVectorMask.
  assert (G : forall js b, bmWf b -> squareSize b = squareSize bm ->
            (forall j, j ∈ js -> j < squareSize bm) ->
            Get (foldl (fun bm j => match mode with
                                    | row => SetBit bm i j
                                    | column => SetBit bm j i
                                    end) b js) r c = true
            <-> Get b r c = true \/ (onAxis mode i r c /\
                   match mode with row => c ∈ js | column => r ∈ js end)).
  { induction js as [|j js IH]; intros b Hb Hs Hjs; simpl.
    - split; [tauto|]. intros [H|[_ H]]; [done|]. destruct mode; by apply elem_of_nil in H.
    - assert (Hj : j < squareSize bm) by (apply Hjs, list_elem_of_here).
      rewrite IH; cycle 1.
      + destruct mode; by apply SetBit_wf.
      + by destruct mode.
      + intros j' Hj'. apply Hjs. by apply list_elem_of_further.
      + destruct mode; simpl; rewrite Get_SetBit by (rewrite ?Hs; done);
          rewrite elem_of_cons; unfold onAxis; tauto. }
  rewrite G; [|done|done|].
  - destruct mode; simpl; split; try tauto.
    + intros [H| ->]; [tauto|]. right. split; [done|]. apply elem_of_seq. lia.
    + intros [H| ->]; [tauto|]. right. split; [done|]. apply elem_of_seq. lia.
  - intros j Hj. apply elem_of_seq in Hj. lia.
Qed.

(** ** The first loop of the entry point *)

Lemma scanData_gen (data : list chunk) (n : nat) (bm : bitMatrix) (cs : nat) :
  let r := foldl (fun '(bitMat, chunkSize) '(i, d) =>
                    if negb (isNil d) then
                      (SetFlat bitMat i, if chunkSize =? 0 then len d else chunkSize)
                    else (bitMat, chunkSize))
                 (bm, cs) (zip (seq n (length data)) data) in
  squareSize r.1 = squareSize bm /\
  length (mask r.1) = length (mask bm) /\
  (forall k, mask r.1 !! k = Some true <->
             mask bm !! k = Some true \/
             (k < length (mask bm) /\ n <= k /\ exists c, data !! (k - n) = Some (Some c))) /\
  r.2 = foldl (fun chunkSize d =>
                 if negb (isNil d) then (if chunkSize =? 0 then len d else chunkSize)
                 else chunkSize) cs data.
Proof.
  revert n bm cs. induction data as [|d data IH]; intros n bm cs; simpl.
  - repeat split; auto. intros [H|(_ & _ & c & H)]; [done|]. by rewrite lookup_nil in H.
  - match goal with |- context [foldl ?f ?s0 (zip (seq (S n) _) data)] =>
      specialize (IH (S n) s0.1 s0.2); destruct s0 as [bm' cs'] eqn:E end.
    simpl in IH. destruct IH as (Hs & Hl & Hk & Hc).
    destruct d as [c|]; simpl in E; injection E as <- <-.
    + simpl in *. rewrite length_insert in Hl, Hk. repeat split; try done.
      * intros H. apply Hk in H as [H|(Hlt & Hle & c' & H)].
        -- destruct (decide (n = k)) as [->|NE].
           ++ right. repeat split; [by apply lookup_lt_Some in H; rewrite length_insert in H|lia|].
              exists c. by rewrite Nat.sub_diag.
           ++ rewrite list_lookup_insert_ne in H by done. by left.
        -- right. repeat split; [done|lia|]. exists c'.
           replace (k - n) with (S (k - S n)) by lia. done.
      * intros [H|(Hlt & Hle & c' & H)]; apply Hk.
        -- left. destruct (decide (n = k)) as [->|NE].
           ++ apply list_lookup_insert_eq. by apply lookup_lt_Some in H.
           ++ by rewrite list_lookup_insert_ne.
        -- destruct (decide (n = k)) as [->|NE].
           ++ left. by apply list_lookup_insert_eq.
           ++ right. repeat split; [done|lia|]. exists c'.
              replace (k - n) with (S (k - S n)) in H by lia. done.
    + simpl in *. repeat split; try done.
      * intros H. apply Hk in H as [H|(Hlt & Hle & c' & H)]; [by left|].
        right. repeat split; [done|lia|]. exists c'.
        replace (k - n) with (S (k - S n)) by lia. done.
      * intros [H|(Hlt & Hle & c' & H)]; apply Hk; [by left|].
        destruct (decide (n = k)) as [->|NE].
        -- by rewrite Nat.sub_diag in H.
        -- right. repeat split; [done|lia|]. exists c'.
           replace (k - n) with (S (k - S n)) in H by lia. done.
Qed.

(** What the first loop computes: a mask of the square's size whose set bits
    are the positions of the non-nil chunks, and [chunkSize]. *)
Lemma scanData_spec (w : nat) (data : list chunk) :
  squareSize (scanData w data).1 = w /\
  bmWf (scanData w data).1 /\
  (forall k, mask (scanData w data).1 !! k = Some true <->
             k < w * w /\ exists c, data !! k = Some (Some c)) /\
  (scanData w data).2 = chunkSizeOf data.
Proof.
  pose proof (scanData_gen data 0 (newBitMatrix w) 0) as H. simpl in H.
  destruct H as (Hs & Hl & Hk & Hc). unfold scanData, bmWf.
  rewrite length_replicate in Hl, Hk.
  repeat split; try done.
  - by rewrite Hl, Hs.
  - apply Hk in H as [H|(H & _ & _)]; [|done].
    apply lookup_replicate in H as [? _]. done.
  - apply Hk in H as [H|(_ & _ & c & H)].
    + apply lookup_replicate in H as [? _]. done.
    + exists c. by rewrite Nat.sub_0_r in H.
  - intros [Hlt [c H]]. apply Hk. right. repeat split; [done|lia|].
    exists c. by rewrite Nat.sub_0_r.
Qed.

Lemma chunkSizeOf_nil (data : list chunk) :
  (forall d, d ∈ data -> len d = 0) -> chunkSizeOf data = 0.
Proof.
  unfold chunkSizeOf. induction data as [|d data IH]; intros H; simpl; [done|].
  rewrite (H d) by apply list_elem_of_here. rewrite Tauto.if_same.
  apply IH. intros d' Hd'. apply H. by apply list_elem_of_further.
Qed.

Lemma chunkSizeOf_set (data : list chunk) (n : nat) :
  n <> 0 ->
  foldl (fun chunkSize d =>
           if negb (isNil d) then (if chunkSize =? 0 then len d else chunkSize)
           else chunkSize) n data = n.
Proof.
  intros Hn. induction data as [|d data IH]; simpl; [done|].
  destruct (Nat.eqb_spec n 0); [done|]. by rewrite Tauto.if_same.
Qed.

(** [chunkSize] is the length of the first chunk that is not empty. *)
Lemma chunkSizeOf_first (pre post : list chunk) (c : list byte) :
  (forall d, d ∈ pre -> len d = 0) -> c <> [] ->
  chunkSizeOf (pre ++ Some c :: post) = length c.
Proof.
  intros Hpre Hc. unfold chunkSizeOf. rewrite foldl_app.
  fold (chunkSizeOf pre). rewrite (chunkSizeOf_nil pre Hpre). simpl.
  apply chunkSizeOf_set. unfold len. simpl. by destruct c.
Qed.

Lemma first_nonempty_chunk (data : list chunk) :
  (exists c, Some c ∈ data /\ c <> []) ->
  exists pre c post,
    data = pre ++ Some c :: post /\ (forall d, d ∈ pre -> len d = 0) /\ c <> [].
Proof.
  induction data as [|d data IH]; intros (c & Hin & Hc).
  - by apply elem_of_nil in Hin.
  - destruct (decide (len d = 0)) as [Hd|Hd].
    + destruct IH as (pre & c' & post & -> & Hpre & Hc').
      * exists c. split; [|done]. apply elem_of_cons in Hin as [<-|Hin]; [|done].
        unfold len in Hd. simpl in Hd. destruct c; [by destruct Hc|discriminate].
      * exists (d :: pre), c', post. repeat split; [|done].
        intros d' [->|Hd']%elem_of_cons; auto.
    + destruct d as [c'|]; [|done]. exists [], c', data. repeat split.
      * intros d Hd'. by apply elem_of_nil in Hd'.
      * intros ->. done.
Qed.

Lemma fillData_lookup (chunkSize : nat) (data : list chunk) (i : nat) :
  fillData chunkSize data !! i =
  (fun d => if isNil d then Some (replicate chunkSize x00) else d) <$> data !! i.
Proof. unfold fillData. apply list_lookup_fmap. Qed.

Lemma fillData_present (chunkSize : nat) (data : list chunk) :
  (forall d, d ∈ data -> d <> None) -> fillData chunkSize data = data.
Proof.
  intros H. unfold fillData. induction data as [|d data IH]; simpl; [done|].
  f_equal.
  - specialize (H d (list_elem_of_here _ _)). by destruct d.
  - apply IH. intros d' Hd'. apply H. by apply list_elem_of_further.
Qed.

Lemma fillData_no_nil (chunkSize : nat) (data : list chunk) (d : chunk) :
  d ∈ fillData chunkSize data -> d <> None.
Proof.
  unfold fillData. intros (d' & -> & _)%list_elem_of_fmap. by destruct d'.
Qed.

Section EntryPoint.

Context {CodecType : Type} {codecs : Codecs CodecType} {treeFn : TreeConstructorFn}.

(** The entry point, once [chunkSize] is known not to be zero. *)
Lemma Repair_unfold (fuel : nat) (rowRoots columnRoots data : list chunk) (codec : CodecType) :
  chunkSizeOf data <> 0 ->
  RepairExtendedDataSquare fuel rowRoots columnRoots data codec =
  (fillData (chunkSizeOf data) data,
   match ImportExtendedDataSquare (fillData (chunkSizeOf data) data) codec with
   | Panic => Some Panic
   | Err e => Some (Err e)
   | Ok eds =>
       match prerepairSanityCheck rowRoots columnRoots
               (scanData (ceilSqrt (length data)) data).1 eds with
       | Panic => Some Panic
       | Err e => Some (Err e)
       | Ok _ =>
           match solveCrossword fuel rowRoots columnRoots eds
                   (scanData (ceilSqrt (length data)) data).1 with
           | None => None
           | Some Panic => Some Panic
           | Some (Err e) => Some (Err e)
           | Some (Ok (eds', _)) => Some (Ok eds')
           end
       end
   end).
Proof.
  intros Hcs. unfold RepairExtendedDataSquare.
  pose proof (scanData_spec (ceilSqrt (length data)) data) as (_ & _ & _ & Hc).
  destruct (scanData (ceilSqrt (length data)) data) as [bitMat chunkSize].
  simpl in *. subst chunkSize.
  destruct (Nat.eqb_spec (chunkSizeOf data) 0); [done|]. done.
Qed.

(** C6.  When no chunk of the list is present (every entry is nil), the
    entry point returns [ErrUnrepairableDataSquare] at once: whatever the
    fuel of the solver (none is needed), the codec, the tree and the roots,
    and the caller's list is left as it was: nothing is filled, imported,
    checked or solved. *)
Theorem Repair_no_chunk_present (fuel : nat) (rowRoots columnRoots data : list chunk)
    (codec : CodecType) :
  (forall d, d ∈ data -> d = None) ->
  RepairExtendedDataSquare fuel rowRoots columnRoots data codec
  = (data, Some (Err ErrUnrepairableDataSquare)).
Proof.
  intros Hnil. unfold RepairExtendedDataSquare.
  pose proof (scanData_spec (ceilSqrt (length data)) data) as (_ & _ & _ & Hc).
  destruct (scanData (ceilSqrt (length data)) data) as [bitMat chunkSize].
  simpl in Hc. rewrite chunkSizeOf_nil in Hc.
  - by subst chunkSize.
  - intros d Hd. by rewrite (Hnil d Hd).
Qed.

(** C10.  On a call whose list holds a non-nil chunk of nonzero length, the
    list that the caller sees afterwards has, at every position that was
    nil, a chunk of [chunkSize] zero bytes, [chunkSize] being the length of
    the first such chunk, and its other entries as they were; this is the
    list handed to the import, and it is what the caller sees also when the
    import, the sanity check or the solver fails. *)
Theorem Repair_fills_nil_chunks (fuel : nat) (rowRoots columnRoots data : list chunk)
    (codec : CodecType) :
  (exists c, Some c ∈ data /\ c <> []) ->
  exists pre c post filled outcome,
    data = pre ++ Some c :: post /\ (forall d, d ∈ pre -> len d = 0) /\ c <> [] /\
    RepairExtendedDataSquare fuel rowRoots columnRoots data codec = (filled, outcome) /\
    length filled = length data /\
    (forall i, data !! i = Some None ->
               filled !! i = Some (Some (replicate (length c) x00))) /\
    (forall i d, data !! i = Some (Some d) -> filled !! i = Some (Some d)) /\
    (forall e, ImportExtendedDataSquare filled codec = Err e -> outcome = Some (Err e)) /\
    (forall eds e,
        ImportExtendedDataSquare filled codec = Ok eds ->
        prerepairSanityCheck rowRoots columnRoots
          (scanData (ceilSqrt (length data)) data).1 eds = Err e ->
        outcome = Some (Err e)) /\
    (forall eds e,
        ImportExtendedDataSquare filled codec = Ok eds ->
        prerepairSanityCheck rowRoots columnRoots
          (scanData (ceilSqrt (length data)) data).1 eds = Ok tt ->
        solveCrossword fuel rowRoots columnRoots eds
          (scanData (ceilSqrt (length data)) data).1 = Some (Err e) ->
        outcome = Some (Err e)).
Proof.
  intros Hex. destruct (first_nonempty_chunk data Hex) as (pre & c & post & Hd & Hpre & Hc).
  pose proof (chunkSizeOf_first pre post c Hpre Hc) as Hcs. rewrite <- Hd in Hcs.
  assert (Hne : chunkSizeOf data <> 0) by (rewrite Hcs; by destruct c).
  exists pre, c, post. eexists _, _.
  split; [done|]. split; [done|]. split; [done|].
  split; [apply (Repair_unfold fuel rowRoots columnRoots data codec Hne)|].
  rewrite Hcs. repeat split.
  - unfold fillData. by rewrite length_fmap.
  - intros i Hi. by rewrite fillData_lookup, Hi.
  - intros i d Hi. by rewrite fillData_lookup, Hi.
  - intros e He. by rewrite He.
  - intros eds e He Hs. by rewrite He, Hs.
  - intros eds e He Hs Hsolve. by rewrite He, Hs, Hsolve.
Qed.

End EntryPoint.

(** ** The imported square *)

Section SquareProperties.

Context {CodecType : Type} {codecs : Codecs CodecType} {treeFn : TreeConstructorFn}.

Local Abbreviation ExtendedDataSquare := (@ExtendedDataSquare CodecType).

Lemma Import_inv (data : list chunk) (cd : CodecType) (eds : ExtendedDataSquare) :
  ImportExtendedDataSquare data cd = Ok eds ->
  let w := ceilSqrt (length data) in
  w * w = length data /\ Nat.odd w = false /\
  eds = {| squareRow := (fun i => take w (drop (i * w) data)) <$> seq 0 w;
           width := w; originalDataWidth := w / 2; codec := cd |}.
Proof.
  unfold ImportExtendedDataSquare. intros Himp. cbv zeta in *.
  set (w := ceilSqrt (length data)) in *.
  destruct (Nat.eqb_spec (w * w) (length data)); simpl in Himp; [|done].
  destruct (maxChunks cd <? length data); [done|].
  destruct (forallb _ data); simpl in Himp; [|done].
  destruct (Nat.odd w); [done|]. by injection Himp as <-.
Qed.

Lemma Import_Row (data : list chunk) (cd : CodecType) (eds : ExtendedDataSquare) (i : nat) :
  ImportExtendedDataSquare data cd = Ok eds -> i < width eds ->
  Row eds i = take (width eds) (drop (i * width eds) data).
Proof.
  intros (Hw & _ & ->)%Import_inv Hi. simpl in *. unfold Row. simpl.
  rewrite list_lookup_fmap, lookup_seq_lt by done. done.
Qed.

Lemma Import_getCell (data : list chunk) (cd : CodecType) (eds : ExtendedDataSquare)
    (r c : nat) :
  ImportExtendedDataSquare data cd = Ok eds -> r < width eds -> c < width eds ->
  data !! (r * width eds + c) = Some (getCell eds r c).
Proof.
  intros Himp Hr Hc. unfold getCell. rewrite (Import_Row _ _ _ _ Himp Hr).
  rewrite lookup_take_lt, lookup_drop by done.
  apply Import_inv in Himp as (Hw & _ & ->). simpl in *.
  pose proof (flat_index_lt _ _ _ Hr Hc) as Hlt. rewrite Hw in Hlt.
  apply lookup_lt_is_Some_2 in Hlt as [d Hd]. by rewrite Hd.
Qed.





End SquareProperties.

(** ** The pre-repair sanity check *)

Section SanityCheck.

Context {CodecType : Type} {codecs : Codecs CodecType} {treeFn : TreeConstructorFn}.

Local Abbreviation ExtendedDataSquare := (@ExtendedDataSquare CodecType).

Variables (rowRoots columnRoots : list chunk) (bitMask : bitMatrix).
Variable eds : ExtendedDataSquare.

(** The check returns what its first round that does not pass returns. *)
Lemma prerepairSanityCheck_first (i : nat) :
  i < width eds ->
  (forall k, k < i -> sanityCheckAt rowRoots columnRoots bitMask eds k = Ok tt) ->
  prerepairSanityCheck rowRoots columnRoots bitMask eds =
  do _ <- sanityCheckAt rowRoots columnRoots bitMask eds i;
  foldR (fun i _ => sanityCheckAt rowRoots columnRoots bitMask eds i)
        (seq (S i) (width eds - S i)) tt.
Proof.
  intros Hi Hk. unfold prerepairSanityCheck.
  rewrite (seq_split_at _ _ Hi).
  apply (foldR_unit_first (sanityCheckAt rowRoots columnRoots bitMask eds)).
  intros k Hin. apply Hk. apply elem_of_seq in Hin. lia.
Qed.

Lemma prerepairSanityCheck_ok :
  (forall k, k < width eds -> sanityCheckAt rowRoots columnRoots bitMask eds k = Ok tt) ->
  prerepairSanityCheck rowRoots columnRoots bitMask eds = Ok tt.
Proof.
  intros Hk. apply (foldR_unit_ok (sanityCheckAt rowRoots columnRoots bitMask eds)).
  intros k Hin. apply Hk. apply elem_of_seq in Hin. lia.
Qed.

(** The root test of a complete axis without missing data, when the roots
    differ. *)
Lemma checkRoot_mismatch (mode : Mode) (i : nat) (r : chunk) :
  noMissingData (axisVector eds mode i) = true ->
  isIncomplete bitMask mode i = false ->
  rootsOf rowRoots columnRoots mode !! i = Some r ->
  bytesEqual r (computedRoot eds mode i) = false ->
  checkRoot rowRoots columnRoots bitMask eds mode i
  = Err (ErrBadRootInput mode i r (computedRoot eds mode i)).
Proof.
  intros Hn Hc Hr Hne. unfold checkRoot, index.
  destruct mode; simpl in *; apply negb_false_iff in Hc;
    rewrite Hn, Hc, Hr; simpl; by rewrite Hne.
Qed.

(** The parity test of a complete axis, when the encoding of its data half
    differs from its parity half. *)
Lemma checkParity_mismatch (mode : Mode) (i : nat) (parityShares : list chunk) :
  isIncomplete bitMask mode i = false ->
  Encode (dataSlice eds mode i) (codec eds) = Ok parityShares ->
  bytesEqual (flattenChunks parityShares) (flattenChunks (paritySlice eds mode i)) = false ->
  checkParity bitMask eds mode i = Err (ErrByzantine mode i).
Proof.
  intros Hc He Hne. unfold checkParity.
  destruct mode; simpl in *; apply negb_false_iff in Hc;
    rewrite Hc, He; simpl; by rewrite Hne.
Qed.

Lemma prerepairSanityCheck_bad_root (mode : Mode) (i : nat) (r : chunk) :
  i < width eds ->
  noMissingData (axisVector eds mode i) = true ->
  isIncomplete bitMask mode i = false ->
  rootsOf rowRoots columnRoots mode !! i = Some r ->
  bytesEqual r (computedRoot eds mode i) = false ->
  firstRootFailure rowRoots columnRoots bitMask eds mode i ->
  prerepairSanityCheck rowRoots columnRoots bitMask eds
  = Err (ErrBadRootInput mode i r (computedRoot eds mode i)).
Proof.
  intros Hi Hn Hc Hr Hne [Hk Hrow].
  rewrite (prerepairSanityCheck_first i Hi Hk). unfold sanityCheckAt.
  pose proof (checkRoot_mismatch mode i r Hn Hc Hr Hne) as Hchk.
  destruct mode.
  - by rewrite Hchk.
  - by rewrite (Hrow eq_refl), Hchk.
Qed.

(** C5 (amended).  For an axis without missing data that the bit mask marks
    fully present, when the root computed for it differs from the caller's
    root and no earlier test of the scan fails, [prerepairSanityCheck] fails
    with the plain bad-root input error of that axis, which is neither
    [ErrByzantineRow] nor [ErrByzantineColumn]. *)
Theorem prerepairSanityCheck_root_mismatch (mode : Mode) (i : nat) (r : chunk) :
  i < width eds ->
  noMissingData (axisVector eds mode i) = true ->
  isIncomplete bitMask mode i = false ->
  rootsOf rowRoots columnRoots mode !! i = Some r ->
  bytesEqual r (computedRoot eds mode i) = false ->
  firstRootFailure rowRoots columnRoots bitMask eds mode i ->
  exists e,
    prerepairSanityCheck rowRoots columnRoots bitMask eds = Err e /\
    e = ErrBadRootInput mode i r (computedRoot eds mode i) /\
    isByzantine e = false.
Proof.
  intros Hi Hn Hc Hr Hne Hfirst. eexists. split; [|split; [reflexivity|done]].
  by apply prerepairSanityCheck_bad_root.
Qed.

(** C4 (amended).  For an axis that the bit mask marks fully present, when
    the encoding of its first [originalDataWidth] chunks does not byte-equal
    its stored parity chunks and no earlier test of the scan fails (the
    rounds before [i], the two root tests of round [i] and, for a column,
    the parity test of row [i]), [prerepairSanityCheck] returns
    [ErrByzantineRow i] for a row and [ErrByzantineColumn i] for a
    column. *)
Theorem prerepairSanityCheck_parity_mismatch (mode : Mode) (i : nat)
    (parityShares : list chunk) :
  i < width eds ->
  isIncomplete bitMask mode i = false ->
  Encode (dataSlice eds mode i) (codec eds) = Ok parityShares ->
  bytesEqual (flattenChunks parityShares) (flattenChunks (paritySlice eds mode i)) = false ->
  firstParityFailure rowRoots columnRoots bitMask eds mode i ->
  prerepairSanityCheck rowRoots columnRoots bitMask eds
  = Err (match mode with
         | row => ErrByzantineRow i
         | column => ErrByzantineColumn i
         end).
Proof.
  intros Hi Hc He Hne (Hk & Hrow & Hcol & Hpar).
  rewrite (prerepairSanityCheck_first i Hi Hk). unfold sanityCheckAt.
  rewrite Hrow, Hcol. simpl.
  pose proof (checkParity_mismatch mode i parityShares Hc He Hne) as Hchk.
  destruct mode.
  - by rewrite Hchk.
  - by rewrite (Hpar eq_refl), Hchk.
Qed.

End SanityCheck.

(** ** The bit mask of the entry point *)

Lemma Get_true (bm : bitMatrix) (r c : nat) :
  Get bm r c = true <-> mask bm !! (r * squareSize bm + c) = Some true.
Proof.
  unfold Get. destruct (mask bm !! (r * squareSize bm + c)) as [[]|]; simpl;
    split; done.
Qed.

Lemma Get_scanData (w : nat) (data : list chunk) (r c : nat) :
  Get (scanData w data).1 r c = true <->
  r * w + c < w * w /\ exists d, data !! (r * w + c) = Some (Some d).
Proof.
  pose proof (scanData_spec w data) as (Hs & _ & Hk & _).
  rewrite Get_true, Hs. apply Hk.
Qed.

Lemma isIncomplete_false (bm : bitMatrix) (mode : Mode) (i : nat) :
  isIncomplete bm mode i = false <->
  forall j, j < squareSize bm ->
            Get bm (match mode with row => i | column => j end)
                   (match mode with row => j | column => i end) = true.
Proof.
  unfold isIncomplete, RowIsOne, ColumnIsOne, RowRangeIsOne, ColRangeIsOne.
  rewrite Nat.sub_0_r.
  destruct mode; rewrite negb_false_iff, forallb_seq; split; intros Hj j ?; apply Hj; lia.
Qed.

Lemma scanData_axisPresent (data : list chunk) (mode : Mode) (i : nat) :
  i < ceilSqrt (length data) -> axisPresent data mode i ->
  isIncomplete (scanData (ceilSqrt (length data)) data).1 mode i = false.
Proof.
  intros Hi Hp. apply isIncomplete_false. intros j Hj.
  pose proof (scanData_spec (ceilSqrt (length data)) data) as (Hs & _).
  rewrite Hs in Hj. apply Get_scanData. specialize (Hp j Hj).
  destruct mode; split; try done; by apply flat_index_lt.
Qed.

Section RepairSanity.

Context {CodecType : Type} {codecs : Codecs CodecType} {treeFn : TreeConstructorFn}.

Local Abbreviation ExtendedDataSquare := (@ExtendedDataSquare CodecType).


End RepairSanity.

(** ** Counting the incomplete axes *)

Lemma countb_length (f : nat -> bool) (l : list nat) : countb f l <= length l.
Proof. induction l as [|x l IH]; simpl; [lia|]. destruct (f x); lia. Qed.

Lemma countb_le (f g : nat -> bool) (l : list nat) :
  (forall x, x ∈ l -> f x = true -> g x = true) -> countb f l <= countb g l.
Proof.
  induction l as [|x l IH]; intros H; simpl; [lia|].
  assert (countb f l <= countb g l)
    by (apply IH; intros y Hy; apply H; by apply list_elem_of_further).
  pose proof (H x (list_elem_of_here _ _)) as Hx.
  destruct (f x), (g x); first [lia | by specialize (Hx eq_refl)].
Qed.

Lemma countb_lt (f g : nat -> bool) (l : list nat) (x : nat) :
  (forall y, y ∈ l -> f y = true -> g y = true) ->
  x ∈ l -> f x = false -> g x = true -> countb f l < countb g l.
Proof.
  induction l as [|y l IH]; intros H Hin Hf Hg; [by apply elem_of_nil in Hin|].
  simpl. assert (Hle : countb f l <= countb g l)
    by (apply countb_le; intros z Hz; apply H; by apply list_elem_of_further).
  apply elem_of_cons in Hin as [<-|Hin].
  - rewrite Hf, Hg. lia.
  - assert (countb f l < countb g l)
      by (apply IH; try done; intros z Hz; apply H; by apply list_elem_of_further).
    pose proof (H y (list_elem_of_here _ _)) as Hy.
    destruct (f y), (g y); first [lia | by specialize (Hy eq_refl)].
Qed.

Lemma countb_pos (f : nat -> bool) (l : list nat) :
  0 < countb f l <-> exists x, x ∈ l /\ f x = true.
Proof.
  induction l as [|y l IH]; simpl.
  - split; [lia|]. intros (x & Hx & _). by apply elem_of_nil in Hx.
  - split.
    + intros Hpos. destruct (f y) eqn:E.
      * exists y. split; [apply list_elem_of_here|done].
      * destruct IH as [IH _]. destruct IH as (x & Hx & Hfx); [lia|].
        exists x. split; [by apply list_elem_of_further|done].
    + intros (x & [->|Hx]%elem_of_cons & Hfx).
      * rewrite Hfx. lia.
      * assert (0 < countb f l) by (apply IH; eauto). lia.
Qed.

Lemma forallb_false_exists {A : Type} (f : A -> bool) (l : list A) :
  forallb f l = false -> exists x, x ∈ l /\ f x = false.
Proof.
  induction l as [|y l IH]; simpl; [done|].
  destruct (f y) eqn:E; simpl.
  - intros (x & Hx & Hfx)%IH. exists x. split; [by apply list_elem_of_further|done].
  - intros _. exists y. split; [apply list_elem_of_here|done].
Qed.

Lemma incompleteAxes_le (bm : bitMatrix) : incompleteAxes bm <= 2 * squareSize bm.
Proof.
  unfold incompleteAxes.
  pose proof (countb_length (isIncomplete bm row) (seq 0 (squareSize bm))).
  pose proof (countb_length (isIncomplete bm column) (seq 0 (squareSize bm))).
  rewrite length_seq in *. lia.
Qed.

Lemma isIncomplete_true (bm : bitMatrix) (mode : Mode) (i : nat) :
  isIncomplete bm mode i = true ->
  exists j, j < squareSize bm /\
            Get bm (match mode with row => i | column => j end)
                   (match mode with row => j | column => i end) = false.
Proof.
  unfold isIncomplete, RowIsOne, ColumnIsOne, RowRangeIsOne, ColRangeIsOne.
  rewrite Nat.sub_0_r.
  destruct mode; rewrite negb_true_iff; intros (j & Hj & Hg)%forallb_false_exists;
    apply elem_of_seq in Hj; exists j; (split; [lia|done]).
Qed.

Lemma isIncomplete_of_unset (bm : bitMatrix) (mode : Mode) (i j : nat) :
  j < squareSize bm ->
  Get bm (match mode with row => i | column => j end)
         (match mode with row => j | column => i end) = false ->
  isIncomplete bm mode i = true.
Proof.
  intros Hj Hg. destruct (isIncomplete bm mode i) eqn:E; [done|].
  rewrite isIncomplete_false in E. by rewrite (E j Hj) in Hg.
Qed.

(** A cell that is not known makes its row and its column incomplete: the
    number of incomplete axes is never one. *)
Lemma incompleteAxes_not_one (bm : bitMatrix) : incompleteAxes bm <> 1.
Proof.
  unfold incompleteAxes.
  set (w := squareSize bm).
  destruct (decide (0 < countb (isIncomplete bm row) (seq 0 w))) as [Hr|Hr].
  - assert (0 < countb (isIncomplete bm column) (seq 0 w)); [|lia].
    apply countb_pos in Hr as (i & Hi & Hinc). apply elem_of_seq in Hi.
    apply isIncomplete_true in Hinc as (j & Hj & Hg). simpl in Hg.
    apply countb_pos. exists j. split; [apply elem_of_seq; lia|].
    apply (isIncomplete_of_unset bm column j i); [fold w; lia|done].
  - destruct (decide (0 < countb (isIncomplete bm column) (seq 0 w))) as [Hc|Hc]; [|lia].
    exfalso. apply Hr.
    apply countb_pos in Hc as (i & Hi & Hinc). apply elem_of_seq in Hi.
    apply isIncomplete_true in Hinc as (j & Hj & Hg). simpl in Hg.
    apply countb_pos. exists j. split; [apply elem_of_seq; lia|].
    apply (isIncomplete_of_unset bm row j i); [fold w; lia|done].
Qed.

Lemma maskLe_refl (bm : bitMatrix) : maskLe bm bm.
Proof. by split. Qed.

Lemma maskLe_trans (bm1 bm2 bm3 : bitMatrix) :
  maskLe bm1 bm2 -> maskLe bm2 bm3 -> maskLe bm1 bm3.
Proof.
  intros [Hs1 H1] [Hs2 H2]. split; [congruence|].
  intros r c Hr Hc Hg. apply H2; [congruence..|]. by apply H1.
Qed.

Lemma maskLe_complete (bm bm' : bitMatrix) (mode : Mode) (i : nat) :
  maskLe bm bm' -> i < squareSize bm ->
  isIncomplete bm mode i = false -> isIncomplete bm' mode i = false.
Proof.
  intros [Hs Hle] Hi. rewrite !isIncomplete_false, Hs. intros H j Hj.
  destruct mode; apply Hle; auto.
Qed.

Lemma maskLe_incompleteAxes (bm bm' : bitMatrix) :
  maskLe bm bm' -> incompleteAxes bm' <= incompleteAxes bm.
Proof.
  intros Hle. unfold incompleteAxes. destruct Hle as [Hs Hle]. rewrite Hs.
  assert (forall mode, countb (isIncomplete bm' mode) (seq 0 (squareSize bm))
                       <= countb (isIncomplete bm mode) (seq 0 (squareSize bm))) as H.
  { intros mode. apply countb_le. intros i Hi%elem_of_seq Hinc.
    destruct (isIncomplete bm mode i) eqn:E; [done|].
    rewrite (maskLe_complete bm bm' mode i) in Hinc; [done|by split|lia|done]. }
  pose proof (H row). pose proof (H column). lia.
Qed.

(** Completing an incomplete axis lowers the number of incomplete axes. *)
Lemma maskLe_incompleteAxes_lt (bm bm' : bitMatrix) (mode : Mode) (i : nat) :
  maskLe bm bm' -> i < squareSize bm ->
  isIncomplete bm mode i = true -> isIncomplete bm' mode i = false ->
  incompleteAxes bm' < incompleteAxes bm.
Proof.
  intros Hle Hi Hinc Hcomp. unfold incompleteAxes.
  pose proof Hle as [Hs Hle']. rewrite Hs.
  assert (forall m x, x ∈ seq 0 (squareSize bm) ->
                      isIncomplete bm' m x = true -> isIncomplete bm m x = true) as Hmono.
  { intros m x Hx%elem_of_seq Hx'. destruct (isIncomplete bm m x) eqn:E; [done|].
    rewrite (maskLe_complete bm bm' m x) in Hx'; [done|done|lia|done]. }
  assert (Hin : i ∈ seq 0 (squareSize bm)) by (apply elem_of_seq; lia).
  destruct mode.
  - pose proof (countb_lt _ _ _ i (Hmono row) Hin Hcomp Hinc).
    pose proof (countb_le _ _ _ (Hmono column)). lia.
  - pose proof (countb_lt _ _ _ i (Hmono column) Hin Hcomp Hinc).
    pose proof (countb_le _ _ _ (Hmono row)). lia.
Qed.

Lemma setVectorMask_maskLe (bm : bitMatrix) (mode : Mode) (i : nat) :
  bmWf bm -> i < squareSize bm ->
  maskLe bm (setVectorMask bm mode i (squareSize bm)).
Proof.
  intros Hwf Hi. split; [apply setVectorMask_size|].
  intros r c Hr Hc Hg. apply Get_setVectorMask; auto.
Qed.

Lemma setVectorMask_complete (bm : bitMatrix) (mode : Mode) (i : nat) :
  bmWf bm -> i < squareSize bm ->
  isIncomplete (setVectorMask bm mode i (squareSize bm)) mode i = false.
Proof.
  intros Hwf Hi. apply isIncomplete_false. rewrite setVectorMask_size.
  intros j Hj. destruct mode; apply Get_setVectorMask; auto; by right.
Qed.

(** ** The crossword solver *)

Lemma foldR_prefix_inv {A S : Type} (P : list A -> S -> Prop) (f : A -> S -> result S)
    (l : list A) (s0 s' : S) :
  P [] s0 ->
  (forall pre a post s s1,
      l = pre ++ a :: post -> P pre s -> f a s = Ok s1 -> P (pre ++ [a]) s1) ->
  foldR f l s0 = Ok s' -> P l s'.
Proof.
  intros H0 Hstep.
  assert (G : forall l2 l1 s, l = l1 ++ l2 -> P l1 s -> foldR f l2 s = Ok s' -> P l s').
  { induction l2 as [|a l2 IH]; intros l1 s Hl HP Hf; simpl in Hf.
    - injection Hf as <-. by rewrite Hl, app_nil_r.
    - destruct (f a s) as [s1| |] eqn:E; simpl in Hf; try done.
      apply (IH (l1 ++ [a]) s1); [by rewrite <- app_assoc| |done].
      by apply (Hstep l1 a l2 s s1). }
  intros Hf. by apply (G l [] s0).
Qed.

Lemma sweepAxes_elem (w i : nat) (mode : Mode) : (i, mode) ∈ sweepAxes w <-> i < w.
Proof.
  unfold sweepAxes. rewrite list_elem_of_bind. split.
  - intros (j & Hin & Hj%elem_of_seq).
    apply elem_of_cons in Hin as [E|Hin]; [injection E as -> _; lia|].
    apply elem_of_cons in Hin as [E|Hin]; [injection E as -> _; lia|].
    by apply elem_of_nil in Hin.
  - intros Hi. exists i. split; [|apply elem_of_seq; lia].
    destruct mode; [apply list_elem_of_here|apply list_elem_of_further, list_elem_of_here].
Qed.

Section Solver.

Context {CodecType : Type} {codecs : Codecs CodecType} {treeFn : TreeConstructorFn}.

Local Abbreviation ExtendedDataSquare := (@ExtendedDataSquare CodecType).
Local Abbreviation solverState := (@solverState CodecType).

Variables rowRoots columnRoots : list chunk.

Lemma insertShares_width (eds : ExtendedDataSquare) (mode : Mode) (i : nat)
    (rebuiltShares : list chunk) :
  width (insertShares eds mode i rebuiltShares) = width eds.
Proof.
  unfold insertShares.
  generalize (zip (seq 0 (length rebuiltShares)) rebuiltShares) as ps.
  intros ps. revert eds. induction ps as [|[p s] ps IH]; intros eds; simpl; [done|].
  rewrite IH. by destruct mode.
Qed.

Lemma solveAxis_complete (i : nat) (mode : Mode) (st : solverState) :
  isIncomplete (theMask st) mode i = false ->
  solveAxis rowRoots columnRoots i mode st = Ok st.
Proof. intros Hc. unfold solveAxis. by rewrite Hc. Qed.

(** The three ways in which [solveAxis] lets the sweep go on. *)
Lemma solveAxis_Ok_inv (i : nat) (mode : Mode) (st st1 : solverState) :
  solveAxis rowRoots columnRoots i mode st = Ok st1 ->
  (isIncomplete (theMask st) mode i = false /\ st1 = st) \/
  (isIncomplete (theMask st) mode i = true /\ st1 = markUnsolved st) \/
  (isIncomplete (theMask st) mode i = true /\
   exists rebuiltShares, st1 = commitAxis st mode i rebuiltShares).
Proof.
  unfold solveAxis. destruct (isIncomplete (theMask st) mode i).
  - destruct (prepareShares _ _ _ _) as [shares| |]; simpl; try done.
    destruct (Decode shares _) as [decoded|e|]; try done.
    + destruct (extendShares _ _ _ _) as [rebuilt| |]; simpl; try done.
      destruct (verifyAgainstRoots _ _ _ _ _) as [root| |]; simpl; try done.
      destruct (foldR _ _ _) as [[]| |]; simpl; try done.
      intros [= <-]. right. right. split; [done|]. by exists rebuilt.
    + intros [= <-]. right. left. done.
  - intros [= <-]. by left.
Qed.

Lemma solveAxis_sweepInv (w : nat) (bm0 : bitMatrix) (pre : list (nat * Mode))
    (i : nat) (mode : Mode) (st st1 : solverState) :
  squareSize bm0 = w -> i < w ->
  sweepInv w bm0 pre st ->
  solveAxis rowRoots columnRoots i mode st = Ok st1 ->
  sweepInv w bm0 (pre ++ [(i, mode)]) st1.
Proof.
  intros Hw0 Hi [Hwd Hsz Hwf Hle Hprog Huns Hsol] Hstep.
  apply solveAxis_Ok_inv in Hstep as [[Hc ->]|[[Hinc ->]|[Hinc [rebuilt ->]]]].
  - split; try done. intros Hs j m [Hin|Hin]%elem_of_app Hj; [by apply Hsol|].
    apply list_elem_of_singleton in Hin. by injection Hin as -> ->.
  - split; simpl; try done.
    intros _. destruct (decide (0 < incompleteAxes bm0)) as [|Hz]; [done|].
    exfalso. assert (Hcomp : isIncomplete bm0 mode i = false).
    { destruct (isIncomplete bm0 mode i) eqn:E; [|done]. exfalso. apply Hz.
      unfold incompleteAxes.
      assert (0 < countb (isIncomplete bm0 mode) (seq 0 (squareSize bm0))).
      { apply countb_pos. exists i. split; [apply elem_of_seq; lia|done]. }
      destruct mode; lia. }
    rewrite (maskLe_complete bm0 (theMask st) mode i) in Hinc; [done|done|lia|done].
  - assert (Hle1 : maskLe (theMask st) (setVectorMask (theMask st) mode i w)).
    { rewrite <- Hsz. apply setVectorMask_maskLe; [done|lia]. }
    assert (Hc1 : isIncomplete (setVectorMask (theMask st) mode i w) mode i = false).
    { rewrite <- Hsz. apply setVectorMask_complete; [done|lia]. }
    unfold commitAxis. rewrite Hwd. split; simpl.
    + by rewrite insertShares_width.
    + by rewrite setVectorMask_size.
    + by apply setVectorMask_wf.
    + by apply (maskLe_trans _ (theMask st)).
    + intros _.
      pose proof (maskLe_incompleteAxes_lt _ _ mode i Hle1 ltac:(lia) Hinc Hc1).
      pose proof (maskLe_incompleteAxes _ _ Hle). lia.
    + done.
    + intros Hs j m [Hin|Hin]%elem_of_app Hj.
      * apply (maskLe_complete (theMask st)); [done|lia|by apply Hsol].
      * apply list_elem_of_singleton in Hin. by injection Hin as -> ->.
Qed.

Lemma sweep_sweepInv (eds : ExtendedDataSquare) (bm : bitMatrix) (st : solverState) :
  bmWf bm -> squareSize bm = width eds ->
  sweep rowRoots columnRoots eds bm = Ok st ->
  sweepInv (width eds) bm (sweepAxes (width eds)) st.
Proof.
  intros Hwf Hsz Hsweep. unfold sweep, sweepOver in Hsweep.
  eapply (foldR_prefix_inv (sweepInv (width eds) bm)); [| |exact Hsweep].
  - split; simpl; try done; try apply maskLe_refl.
    intros _ i mode Hin. by apply elem_of_nil in Hin.
  - intros pre [i mode] post s s1 Hl Hinv Hstep.
    apply (solveAxis_sweepInv _ _ _ _ _ s); try done.
    apply (sweepAxes_elem _ i mode). rewrite Hl.
    apply elem_of_app. right. apply list_elem_of_here.
Qed.

End Solver.

Section SolverTermination.

Context {CodecType : Type} {codecs : Codecs CodecType} {treeFn : TreeConstructorFn}.

Local Abbreviation ExtendedDataSquare := (@ExtendedDataSquare CodecType).
Local Abbreviation solverState := (@solverState CodecType).

Variables rowRoots columnRoots : list chunk.

(** After a full sweep the solver returns the square, returns
    [ErrUnrepairableDataSquare], or sweeps again. *)
Lemma solveCrossword_sweep (fuel : nat) (eds : ExtendedDataSquare) (bm : bitMatrix)
    (st : solverState) :
  sweep rowRoots columnRoots eds bm = Ok st ->
  solveCrossword (S fuel) rowRoots columnRoots eds bm =
  if solved st then Some (Ok (theSquare st, theMask st))
  else if progressMade st
       then solveCrossword fuel rowRoots columnRoots (theSquare st) (theMask st)
       else Some (Err ErrUnrepairableDataSquare).
Proof. intros Hs. simpl. rewrite Hs. by destruct (solved st), (progressMade st). Qed.

Lemma solveCrossword_fuel_mono (fuel fuel' : nat) (eds : ExtendedDataSquare)
    (bm : bitMatrix) (r : result (ExtendedDataSquare * bitMatrix)) :
  solveCrossword fuel rowRoots columnRoots eds bm = Some r -> fuel <= fuel' ->
  solveCrossword fuel' rowRoots columnRoots eds bm = Some r.
Proof.
  revert fuel' eds bm. induction fuel as [|fuel IH]; intros fuel' eds bm Hr Hle; [done|].
  destruct fuel' as [|fuel']; [lia|]. simpl in *.
  destruct (sweep rowRoots columnRoots eds bm) as [st| |]; try done.
  destruct (solved st); [done|]. destruct (progressMade st); simpl in *; [|done].
  apply IH; [done|lia].
Qed.

(** A sweep that goes on to another one has completed an axis. *)
Lemma sweep_progress (eds : ExtendedDataSquare) (bm : bitMatrix) (st : solverState) :
  bmWf bm -> squareSize bm = width eds ->
  sweep rowRoots columnRoots eds bm = Ok st ->
  progressMade st = true ->
  incompleteAxes (theMask st) < incompleteAxes bm.
Proof.
  intros Hwf Hsz Hs Hp.
  by apply (inv_progress _ _ _ _ (sweep_sweepInv _ _ eds bm st Hwf Hsz Hs)).
Qed.

Lemma solveCrossword_terminates_gen (fuel : nat) (eds : ExtendedDataSquare)
    (bm : bitMatrix) :
  bmWf bm -> squareSize bm = width eds -> incompleteAxes bm - 1 < fuel ->
  exists r,
    solveCrossword fuel rowRoots columnRoots eds bm = Some r /\
    forall eds' bm', r = Ok (eds', bm') ->
      width eds' = width eds /\
      forall mode i, i < width eds -> isIncomplete bm' mode i = false.
Proof.
  revert eds bm. induction fuel as [|fuel IH]; intros eds bm Hwf Hsz Hfuel; [lia|].
  simpl. destruct (sweep rowRoots columnRoots eds bm) as [st| |] eqn:Hs.
  - pose proof (sweep_sweepInv _ _ eds bm st Hwf Hsz Hs) as Hinv.
    destruct (solved st) eqn:Hsolved.
    + eexists. split; [done|]. intros eds' bm' [= <- <-].
      split; [apply (inv_width _ _ _ _ Hinv)|].
      intros mode i Hi. apply (inv_solved _ _ _ _ Hinv); [done| |done].
      by apply sweepAxes_elem.
    + destruct (progressMade st) eqn:Hprog; simpl.
      * pose proof (inv_progress _ _ _ _ Hinv Hprog) as Hlt.
        pose proof (incompleteAxes_not_one bm).
        pose proof (incompleteAxes_not_one (theMask st)).
        destruct (IH (theSquare st) (theMask st)) as (r & Hr & Hok).
        -- apply (inv_wf _ _ _ _ Hinv).
        -- by rewrite (inv_size _ _ _ _ Hinv), (inv_width _ _ _ _ Hinv).
        -- lia.
        -- exists r. split; [done|]. intros eds' bm' Heq.
           destruct (Hok eds' bm' Heq) as [Hw Hall].
           rewrite (inv_width _ _ _ _ Hinv) in Hw, Hall. done.
      * eexists. split; [done|]. intros eds' bm'. done.
  - eexists. split; [done|]. intros eds' bm'. done.
  - eexists. split; [done|]. intros eds' bm'. done.
Qed.

(** C7.  [solveCrossword] terminates on every square of positive width
    whose mask has the square's size: [2 x width] sweeps are enough fuel for
    it to return (and more fuel gives the same result).  After a full sweep
    it returns the square (then every axis is marked fully present), returns
    [ErrUnrepairableDataSquare] (no progress; some axis was incomplete), or
    sweeps again, and a sweep after which it goes on has lowered the number
    of incomplete axes. *)
Theorem solveCrossword_terminates (eds : ExtendedDataSquare) (bm : bitMatrix) :
  bmWf bm -> squareSize bm = width eds -> 0 < width eds ->
  exists r,
    solveCrossword (2 * width eds) rowRoots columnRoots eds bm = Some r /\
    (forall fuel, 2 * width eds <= fuel ->
                  solveCrossword fuel rowRoots columnRoots eds bm = Some r) /\
    (forall eds' bm', r = Ok (eds', bm') ->
       forall mode i, i < width eds -> isIncomplete bm' mode i = false) /\
    (forall fuel st, sweep rowRoots columnRoots eds bm = Ok st ->
       solveCrossword (S fuel) rowRoots columnRoots eds bm =
       if solved st then Some (Ok (theSquare st, theMask st))
       else if progressMade st
            then solveCrossword fuel rowRoots columnRoots (theSquare st) (theMask st)
            else Some (Err ErrUnrepairableDataSquare)) /\
    (forall st, sweep rowRoots columnRoots eds bm = Ok st ->
                solved st = false -> 0 < incompleteAxes bm) /\
    (forall st, sweep rowRoots columnRoots eds bm = Ok st ->
                solved st = false -> progressMade st = true ->
                incompleteAxes (theMask st) < incompleteAxes bm).
Proof.
  intros Hwf Hsz Hpos.
  destruct (solveCrossword_terminates_gen (2 * width eds) eds bm Hwf Hsz) as (r & Hr & Hok).
  { pose proof (incompleteAxes_le bm). lia. }
  exists r. split; [done|]. split; [|split; [|split; [|split]]].
  - intros fuel Hle. by apply (solveCrossword_fuel_mono (2 * width eds)).
  - intros eds' bm' Heq. by apply (Hok eds' bm' Heq).
  - intros fuel st Hs. by apply solveCrossword_sweep.
  - intros st Hs Hu.
    by apply (inv_unsolved _ _ _ _ (sweep_sweepInv _ _ eds bm st Hwf Hsz Hs)).
  - intros st Hs _ Hp. by apply (sweep_progress eds).
Qed.

End SolverTermination.

Section CodecFailures.

Context {CodecType : Type} {codecs : Codecs CodecType} {treeFn : TreeConstructorFn}.

Local Abbreviation ExtendedDataSquare := (@ExtendedDataSquare CodecType).
Local Abbreviation solverState := (@solverState CodecType).

Variables rowRoots columnRoots : list chunk.

Lemma solveAxis_decode_failure (i : nat) (mode : Mode) (st : solverState)
    (shares : list chunk) (e : error) :
  isIncomplete (theMask st) mode i = true ->
  prepareShares (theSquare st) (theMask st) mode i = Ok shares ->
  Decode shares (codec (theSquare st)) = Err e ->
  solveAxis rowRoots columnRoots i mode st = Ok (markUnsolved st).
Proof. intros Hinc Hsh Hdec. unfold solveAxis. by rewrite Hinc, Hsh; simpl; rewrite Hdec. Qed.

Lemma solveAxis_encode_failure (i : nat) (mode : Mode) (st : solverState)
    (shares decoded : list chunk) (e : error) :
  isIncomplete (theMask st) mode i = true ->
  prepareShares (theSquare st) (theMask st) mode i = Ok shares ->
  Decode shares (codec (theSquare st)) = Ok decoded ->
  isExtendedPartIncomplete (theSquare st) (theMask st) mode i = true ->
  Encode decoded (codec (theSquare st)) = Err e ->
  solveAxis rowRoots columnRoots i mode st = Err e.
Proof.
  intros Hinc Hsh Hdec Hext Henc. unfold solveAxis, extendShares.
  rewrite Hinc, Hsh; simpl. rewrite Hdec, Hext, Henc. done.
Qed.

(** C8.  In a sweep that has reached an incomplete axis in the state [st]
    and has prepared its shares: if [Decode] fails, the sweep goes on with
    the next axis, the flag [solved] false, and the square, the bit mask and
    [progressMade] as they were; if [Decode] succeeds, the parity half is
    incomplete and [Encode] fails, that error is at once the result of the
    axis, of the sweep and of [solveCrossword]. *)
Theorem solveCrossword_codec_failures (fuel : nat) (eds0 : ExtendedDataSquare)
    (bm0 : bitMatrix) (pre post : list (nat * Mode)) (i : nat) (mode : Mode)
    (st : solverState) (shares : list chunk) :
  sweepAxes (width eds0) = pre ++ (i, mode) :: post ->
  sweepOver rowRoots columnRoots pre
    {| theSquare := eds0; theMask := bm0; solved := true; progressMade := false |} = Ok st ->
  isIncomplete (theMask st) mode i = true ->
  prepareShares (theSquare st) (theMask st) mode i = Ok shares ->
  (forall e, Decode shares (codec (theSquare st)) = Err e ->
     exists st1,
       solveAxis rowRoots columnRoots i mode st = Ok st1 /\
       theSquare st1 = theSquare st /\ theMask st1 = theMask st /\
       solved st1 = false /\ progressMade st1 = progressMade st /\
       sweep rowRoots columnRoots eds0 bm0 = sweepOver rowRoots columnRoots post st1) /\
  (forall decoded e,
     Decode shares (codec (theSquare st)) = Ok decoded ->
     isExtendedPartIncomplete (theSquare st) (theMask st) mode i = true ->
     Encode decoded (codec (theSquare st)) = Err e ->
     solveAxis rowRoots columnRoots i mode st = Err e /\
     sweep rowRoots columnRoots eds0 bm0 = Err e /\
     solveCrossword (S fuel) rowRoots columnRoots eds0 bm0 = Some (Err e)).
Proof.
  intros Haxes Hpre Hinc Hsh.
  assert (Hsweep : sweep rowRoots columnRoots eds0 bm0 =
                   do st1 <- solveAxis rowRoots columnRoots i mode st;
                   sweepOver rowRoots columnRoots post st1).
  { unfold sweep. rewrite Haxes. unfold sweepOver in *.
    rewrite foldR_app, Hpre. done. }
  split.
  - intros e Hdec. exists (markUnsolved st).
    pose proof (solveAxis_decode_failure i mode st shares e Hinc Hsh Hdec) as Hax.
    repeat split; try done. by rewrite Hsweep, Hax.
  - intros decoded e Hdec Hext Henc.
    pose proof (solveAxis_encode_failure i mode st shares decoded e Hinc Hsh Hdec Hext Henc)
      as Hax.
    assert (Hs : sweep rowRoots columnRoots eds0 bm0 = Err e) by (by rewrite Hsweep, Hax).
    repeat split; try done. simpl. by rewrite Hs.
Qed.

End CodecFailures.

(** ** A fully known, consistent square *)

Lemma foldR_fixed {A S : Type} (f : A -> S -> result S) (l : list A) (s : S) :
  (forall a, a ∈ l -> f a s = Ok s) -> foldR f l s = Ok s.
Proof.
  induction l as [|a l IH]; intros H; simpl; [done|].
  rewrite H by apply list_elem_of_here. simpl.
  apply IH. intros a' Ha'. apply H. by apply list_elem_of_further.
Qed.

Lemma axisPresent_all (data : list chunk) (mode : Mode) (i : nat) :
  (forall d, d ∈ data -> d <> None) ->
  ceilSqrt (length data) * ceilSqrt (length data) = length data ->
  i < ceilSqrt (length data) ->
  axisPresent data mode i.
Proof.
  intros Hdata Hw Hi j Hj.
  set (w := ceilSqrt (length data)) in *.
  set (k := match mode with row => i * w + j | column => j * w + i end).
  assert (Hk : k < length data).
  { rewrite <- Hw. unfold k. destruct mode; by apply flat_index_lt. }
  apply lookup_lt_is_Some_2 in Hk as [d Hd]. rewrite Hd.
  assert (d <> None) by (apply Hdata, list_elem_of_lookup; eauto).
  destruct d as [c|]; [by exists c|done].
Qed.

Section Idempotence.

Context {CodecType : Type} {codecs : Codecs CodecType} {treeFn : TreeConstructorFn}.

Local Abbreviation ExtendedDataSquare := (@ExtendedDataSquare CodecType).

Variables rowRoots columnRoots : list chunk.

Lemma checkRoot_match (bm : bitMatrix) (eds : ExtendedDataSquare) (mode : Mode)
    (i : nat) (r : chunk) :
  rootsOf rowRoots columnRoots mode !! i = Some r ->
  bytesEqual r (computedRoot eds mode i) = true ->
  checkRoot rowRoots columnRoots bm eds mode i = Ok tt.
Proof.
  intros Hr Heq. unfold checkRoot, index. destruct mode; simpl in *.
  - destruct (_ && _); [|done]. rewrite Hr. simpl. by rewrite Heq.
  - destruct (_ && _); [|done]. rewrite Hr. simpl. by rewrite Heq.
Qed.

Lemma checkParity_match (bm : bitMatrix) (eds : ExtendedDataSquare) (mode : Mode)
    (i : nat) (parityShares : list chunk) :
  Encode (dataSlice eds mode i) (codec eds) = Ok parityShares ->
  bytesEqual (flattenChunks parityShares) (flattenChunks (paritySlice eds mode i)) = true ->
  checkParity bm eds mode i = Ok tt.
Proof.
  intros He Heq. unfold checkParity.
  destruct (match mode with row => _ | column => _ end); [|done].
  rewrite He. simpl. by rewrite Heq.
Qed.

(** A sweep over a square all of whose axes are complete changes nothing. *)
Lemma sweep_complete (eds : ExtendedDataSquare) (bm : bitMatrix) :
  (forall mode i, i < width eds -> isIncomplete bm mode i = false) ->
  sweep rowRoots columnRoots eds bm
  = Ok {| theSquare := eds; theMask := bm; solved := true; progressMade := false |}.
Proof.
  intros Hall. unfold sweep, sweepOver. apply foldR_fixed.
  intros [i mode] Hin%sweepAxes_elem. apply solveAxis_complete. by apply Hall.
Qed.

(** C9 (amended).  For a fully known, consistent square with a chunk of
    nonzero length (every chunk present, the list filling a square that the
    import accepts, every row and column root equal to the caller's root,
    the parity half of every axis equal to the encoding of its data half),
    [RepairExtendedDataSquare] returns the square whose cells are the chunks
    of the list, and no error; the caller's list is as it was. *)
Theorem Repair_idempotent (fuel : nat) (data : list chunk) (cd : CodecType)
    (eds : ExtendedDataSquare) :
  0 < fuel ->
  (forall d, d ∈ data -> d <> None) ->
  (exists c, Some c ∈ data /\ c <> []) ->
  ImportExtendedDataSquare data cd = Ok eds ->
  (forall mode i, i < width eds ->
     exists r, rootsOf rowRoots columnRoots mode !! i = Some r /\
               bytesEqual r (computedRoot eds mode i) = true) ->
  (forall mode i, i < width eds ->
     exists parityShares,
       Encode (dataSlice eds mode i) cd = Ok parityShares /\
       bytesEqual (flattenChunks parityShares)
                  (flattenChunks (paritySlice eds mode i)) = true) ->
  RepairExtendedDataSquare fuel rowRoots columnRoots data cd = (data, Some (Ok eds)) /\
  forall r c, r < width eds -> c < width eds ->
              data !! (r * width eds + c) = Some (getCell eds r c).
Proof.
  intros Hfuel Hdata Hex Himp Hroots Hparity.
  split; [|intros r c; by apply (Import_getCell data cd)].
  destruct (first_nonempty_chunk data Hex) as (pre & c & post & Hd & Hpre & Hc).
  assert (Hne : chunkSizeOf data <> 0).
  { rewrite Hd, (chunkSizeOf_first pre post c Hpre Hc). by destruct c. }
  rewrite Repair_unfold by done. rewrite (fillData_present _ _ Hdata), Himp.
  pose proof (Import_inv _ _ _ Himp) as (Hw & _ & Heds).
  assert (Hwidth : width eds = ceilSqrt (length data)) by (by rewrite Heds).
  assert (Hcd : codec eds = cd) by (by rewrite Heds).
  set (bm := (scanData (ceilSqrt (length data)) data).1).
  assert (Hall : forall mode i, i < width eds -> isIncomplete bm mode i = false).
  { intros mode i Hi. rewrite Hwidth in Hi.
    apply scanData_axisPresent; [done|]. by apply axisPresent_all. }
  rewrite prerepairSanityCheck_ok.
  - destruct fuel as [|fuel]; [lia|]. simpl. by rewrite (sweep_complete eds bm Hall).
  - intros k Hk. unfold sanityCheckAt.
    destruct (Hroots row k Hk) as (r1 & Hr1 & He1).
    destruct (Hroots column k Hk) as (r2 & Hr2 & He2).
    destruct (Hparity row k Hk) as (p1 & Hp1 & Hq1).
    destruct (Hparity column k Hk) as (p2 & Hp2 & Hq2).
    rewrite (checkRoot_match bm eds row k r1 Hr1 He1),
            (checkRoot_match bm eds column k r2 Hr2 He2). simpl.
    rewrite <- Hcd in Hp1, Hp2.
    rewrite (checkParity_match bm eds row k p1 Hp1 Hq1). simpl.
    apply (checkParity_match bm eds column k p2 Hp2 Hq2).
Qed.

End Idempotence.

(** ** The solver as the entry point calls it *)

Section SolverInput.

Context {CodecType : Type} {codecs : Codecs CodecType} {treeFn : TreeConstructorFn}.

Local Abbreviation ExtendedDataSquare := (@ExtendedDataSquare CodecType).

Lemma chunkSizeOf_data_nonempty (data : list chunk) :
  chunkSizeOf data <> 0 -> 0 < length data.
Proof. destruct data; [done|simpl; lia]. Qed.

(** The square and the mask that [RepairExtendedDataSquare] hands to the
    sanity check and to the solver: the mask has the size of the square,
    and the width is positive. *)
Lemma Repair_solver_input (data : list chunk) (cd : CodecType) (eds : ExtendedDataSquare) :
  chunkSizeOf data <> 0 ->
  ImportExtendedDataSquare (fillData (chunkSizeOf data) data) cd = Ok eds ->
  bmWf (scanData (ceilSqrt (length data)) data).1 /\
  squareSize (scanData (ceilSqrt (length data)) data).1 = width eds /\
  0 < width eds.
Proof.
  intros Hcs Himp.
  pose proof (scanData_spec (ceilSqrt (length data)) data) as (Hs & Hwf & _).
  apply Import_inv in Himp as (Hw & _ & ->). simpl.
  unfold fillData in *. rewrite length_fmap in *.
  pose proof (chunkSizeOf_data_nonempty data Hcs).
  repeat split; [done|done|]. destruct (ceilSqrt (length data)); simpl in *; lia.
Qed.

(** X6.  The entry point returns on every input: [2 x width] sweeps of fuel,
    [width] being [ceil(sqrt(len(data)))], are enough for it to give an
    outcome, whatever the roots, the codec and the tree. *)
Lemma Repair_returns (rowRoots columnRoots data : list chunk) (cd : CodecType) :
  exists outcome,
    (RepairExtendedDataSquare (2 * ceilSqrt (length data)) rowRoots columnRoots data cd).2
    = Some outcome.
Proof.
  destruct (decide (chunkSizeOf data = 0)) as [Hz|Hnz].
  - unfold RepairExtendedDataSquare.
    pose proof (scanData_spec (ceilSqrt (length data)) data) as (_ & _ & _ & Hc).
    destruct (scanData (ceilSqrt (length data)) data) as [bitMat chunkSize].
    simpl in Hc. subst chunkSize. rewrite Hz. simpl. eauto.
  - rewrite Repair_unfold by done. cbn [snd].
    destruct (ImportExtendedDataSquare _ cd) as [eds| |] eqn:Himp; eauto.
    destruct (prerepairSanityCheck _ _ _ eds) as [[]| |]; eauto.
    destruct (Repair_solver_input data cd eds Hnz Himp) as (Hwf & Hsz & Hpos).
    assert (Hw : width eds = ceilSqrt (length data)).
    { apply Import_inv in Himp as (_ & _ & ->). simpl.
      unfold fillData. by rewrite length_fmap. }
    destruct (solveCrossword_terminates_gen rowRoots columnRoots (2 * width eds) eds
                (scanData (ceilSqrt (length data)) data).1 Hwf Hsz) as (r & Hr & _).
    { pose proof (incompleteAxes_le (scanData (ceilSqrt (length data)) data).1). lia. }
    rewrite Hw in Hr. rewrite Hr. destruct r as [[eds' bm']| |]; eauto.
Qed.

End SolverInput.

(** ** The vector handed to the verifier, and the orthogonal check *)

Section SolverVectors.

Context {CodecType : Type} {codecs : Codecs CodecType} {treeFn : TreeConstructorFn}.

Local Abbreviation ExtendedDataSquare := (@ExtendedDataSquare CodecType).

Lemma mapR_length {A B : Type} (f : A -> result B) (l : list A) (bs : list B) :
  mapR f l = Ok bs -> length bs = length l.
Proof.
  revert bs. induction l as [|x l IH]; intros bs; simpl.
  - by intros [= <-].
  - destruct (f x); simpl; try done. destruct (mapR f l); simpl; try done.
    intros [= <-]. simpl. f_equal. by apply IH.
Qed.

Lemma prepareShares_length (eds : ExtendedDataSquare) (bm : bitMatrix) (mode : Mode)
    (i : nat) (shares : list chunk) :
  prepareShares eds bm mode i = Ok shares -> length shares = width eds.
Proof. intros Hm%mapR_length. by rewrite length_seq in Hm. Qed.

(** When the parity half of the axis is known, nothing follows the decoded
    shares in the vector that is verified: [shares] has [eds.width] entries,
    so that [shares[eds.width:]] is empty. *)
Lemma extendShares_known_parity (eds : ExtendedDataSquare) (bm : bitMatrix)
    (mode : Mode) (i : nat) (shares decoded : list chunk) :
  prepareShares eds bm mode i = Ok shares ->
  extendShares eds false shares decoded = Ok decoded.
Proof.
  intros Hlen%prepareShares_length. unfold extendShares.
  rewrite drop_ge by lia. by rewrite app_nil_r.
Qed.

(** The test that guards the check of an orthogonal axis never holds: a cell
    that the mask does not know lies on the orthogonal axis, which therefore
    is not complete. *)
Lemma checkOrthogonal_skips (rowRoots columnRoots : list chunk) (bm : bitMatrix)
    (mode : Mode) (i j : nat) (rebuiltShares : list chunk) :
  i < squareSize bm ->
  checkOrthogonal rowRoots columnRoots bm mode i rebuiltShares j tt = Ok tt.
Proof.
  intros Hi. unfold checkOrthogonal. destruct mode.
  - destruct (Get bm i j) eqn:Hg; simpl; [done|].
    pose proof (isIncomplete_of_unset bm column j i Hi Hg) as Hinc.
    simpl in Hinc. apply negb_true_iff in Hinc. by rewrite Hinc.
  - destruct (Get bm j i) eqn:Hg; simpl; [done|].
    pose proof (isIncomplete_of_unset bm row j i Hi Hg) as Hinc.
    simpl in Hinc. apply negb_true_iff in Hinc. by rewrite Hinc.
Qed.

End SolverVectors.

(** ** Concrete squares *)

Section Concrete.

Import Replica.

(** C1.  The square of width 2 all of whose chunks are [a], with the roots
    of its rows and columns, and its cell [(0, 0)] missing.  Row 0 is
    decoded from its known parity chunk; its parity half is marked present,
    yet the vector handed to the verifier is the decoded chunk alone, of
    length 1 and not [width = 2]: the known parity chunk is not copied.  The
    repair of this consistent square fails with [ErrByzantineRow 0]. *)
Theorem known_parity_not_copied :
  let eds := square2 Repetition [zero; a] [a; a] in
  let bm := mask2 false true true true in
  ImportExtendedDataSquare (fillData 1 [None; a; a; a]) Repetition = Ok eds /\
  (scanData 2 [None; a; a; a]).1 = bm /\
  isIncomplete bm row 0 = true /\
  isExtendedPartIncomplete eds bm row 0 = false /\
  prepareShares eds bm row 0 = Ok [None; a] /\
  Decode [None; a] (codec eds) = Ok [a] /\
  extendShares eds (isExtendedPartIncomplete eds bm row 0) [None; a] [a] = Ok [a] /\
  [a] <> [a] ++ rowSlice eds 0 (originalDataWidth eds) (originalDataWidth eds) /\
  RepairExtendedDataSquare 4 [aa; aa] [aa; aa] [None; a; a; a] Repetition
  = ([zero; a; a; a], Some (Err (ErrByzantineRow 0))).
Proof. vm_compute. repeat split; done. Qed.

(** C2.  The same square with its cell [(0, 1)] missing and a wrong root for
    column 1.  Row 0 is rebuilt, which completes column 1; the vector of
    column 1 does not match the caller's root for it, and the repair returns
    the square without an error: column 1 is never verified. *)
Theorem orthogonal_axis_not_verified :
  exists eds,
    RepairExtendedDataSquare 4 [aa; aa] [aa; zz] [a; None; a; a] Repetition
    = ([a; zero; a; a], Some (Ok eds)) /\
    Column eds 1 = [a; a] /\
    verifyAgainstRoots [aa; aa] [aa; zz] column 1 (Column eds 1)
    = Err (ErrByzantineColumn 1).
Proof. eexists. vm_compute. repeat split; done. Qed.

Lemma ceilSqrt_4 : ceilSqrt 4 = 2.
Proof. reflexivity. Defined.




(** Against C4 as stated: in the same square, which the mask marks fully
    present, the encoding of the data half of row 0 differs from its parity
    half, and the sanity check returns the bad-root input error of row 0,
    not [ErrByzantineRow 0]. *)
Lemma parity_mismatch_behind_bad_root :
  let eds := square2 Repetition [b; a] [a; a] in
  let bm := mask2 true true true true in
  ImportExtendedDataSquare [b; a; a; a] Repetition = Ok eds /\
  (scanData 2 [b; a; a; a]).1 = bm /\
  isIncomplete bm row 0 = false /\
  Encode (dataSlice eds row 0) (codec eds) = Ok [b] /\
  bytesEqual (flattenChunks [b]) (flattenChunks (paritySlice eds row 0)) = false /\
  prerepairSanityCheck [aa; aa] [aa; aa] bm eds = Err (ErrBadRootInput row 0 aa ba) /\
  prerepairSanityCheck [aa; aa] [aa; aa] bm eds <> Err (ErrByzantineRow 0).
Proof. vm_compute. repeat split; done. Qed.

(** The square with rows [[a; b]] and [[a; a]], all of it present, and the
    roots of its own rows and columns: the parity of row 0 is not the
    encoding of its data. *)
Lemma prerepairSanityCheck_parity_mismatch_witness :
  prerepairSanityCheck [ab; aa] [aa; ba] (mask2 true true true true)
    (square2 Repetition [a; b] [a; a])
  = Err (ErrByzantineRow 0).
Proof.
  apply (prerepairSanityCheck_parity_mismatch [ab; aa] [aa; ba]
           (mask2 true true true true) (square2 Repetition [a; b] [a; a]) row 0 [a]).
  - simpl. lia.
  - reflexivity.
  - reflexivity.
  - reflexivity.
  - split; [intros k Hk; lia|].
    split; [reflexivity|]. split; [reflexivity|]. intros Hm; discriminate Hm.
Defined.

(** Against C5 as stated: in that square, with a wrong root for row 1, row 1
    has no missing data, is marked fully present and its root differs from
    the caller's; the sanity check fails with [ErrByzantineRow 0], the
    parity of row 0 being tested first. *)
Lemma root_mismatch_behind_byzantine_row :
  let eds := square2 Repetition [a; b] [a; a] in
  let bm := mask2 true true true true in
  ImportExtendedDataSquare [a; b; a; a] Repetition = Ok eds /\
  (scanData 2 [a; b; a; a]).1 = bm /\
  noMissingData (Row eds 1) = true /\
  isIncomplete bm row 1 = false /\
  bytesEqual zz (RowRoot eds 1) = false /\
  prerepairSanityCheck [ab; zz] [aa; ba] bm eds = Err (ErrByzantineRow 0) /\
  isByzantine (ErrByzantineRow 0) = true.
Proof. vm_compute. repeat split; done. Qed.

(** The amended C5 on the square with rows [[b; a]] and [[a; a]] and the
    roots of the square of [a]s. *)
Lemma prerepairSanityCheck_root_mismatch_witness :
  exists e,
    prerepairSanityCheck [aa; aa] [aa; aa] (mask2 true true true true)
      (square2 Repetition [b; a] [a; a]) = Err e /\
    e = ErrBadRootInput row 0 aa (computedRoot (square2 Repetition [b; a] [a; a]) row 0) /\
    isByzantine e = false.
Proof.
  apply (prerepairSanityCheck_root_mismatch [aa; aa] [aa; aa]
           (mask2 true true true true) (square2 Repetition [b; a] [a; a]) row 0 aa).
  - simpl. lia.
  - reflexivity.
  - reflexivity.
  - reflexivity.
  - reflexivity.
  - split; [intros k Hk; lia|intros Hm; discriminate Hm].
Defined.

(** Against C9 as stated: the square of width 2 whose chunks are all present
    and empty, with the roots of its rows and columns.  It is fully known
    and consistent, and its repair fails with
    [ErrUnrepairableDataSquare]: no chunk sets [chunkSize]. *)
Lemma empty_chunks_unrepairable :
  let e := Some [] : chunk in
  let data := [e; e; e; e] in
  let eds := square2 Repetition [e; e] [e; e] in
  (forall d, d ∈ data -> d <> None) /\
  ImportExtendedDataSquare data Repetition = Ok eds /\
  (forall mode i, i < width eds ->
     exists r, rootsOf [e; e] [e; e] mode !! i = Some r /\
               bytesEqual r (computedRoot eds mode i) = true) /\
  (forall mode i, i < width eds ->
     exists parityShares,
       Encode (dataSlice eds mode i) Repetition = Ok parityShares /\
       bytesEqual (flattenChunks parityShares)
                  (flattenChunks (paritySlice eds mode i)) = true) /\
  RepairExtendedDataSquare 4 [e; e] [e; e] data Repetition
  = (data, Some (Err ErrUnrepairableDataSquare)).
Proof.
  intros e data eds. split; [|split; [reflexivity|split; [|split]]].
  - intros d Hd. unfold data in Hd.
    repeat (apply elem_of_cons in Hd as [->|Hd]; [done|]). by apply elem_of_nil in Hd.
  - intros mode i Hi. simpl in Hi.
    destruct mode, i as [|[|i]]; try lia; eexists; split; reflexivity.
  - intros mode i Hi. simpl in Hi.
    destruct mode, i as [|[|i]]; try lia; eexists; split; reflexivity.
  - reflexivity.
Qed.

(** The amended C9 on the square of [a]s. *)
Lemma Repair_idempotent_witness :
  RepairExtendedDataSquare 1 [aa; aa] [aa; aa] [a; a; a; a] Repetition
  = ([a; a; a; a], Some (Ok (square2 Repetition [a; a] [a; a]))) /\
  forall r c, r < 2 -> c < 2 ->
    [a; a; a; a] !! (r * 2 + c) = Some (getCell (square2 Repetition [a; a] [a; a]) r c).
Proof.
  apply (Repair_idempotent [aa; aa] [aa; aa] 1 [a; a; a; a] Repetition
           (square2 Repetition [a; a] [a; a])).
  - lia.
  - intros d Hd.
    repeat (apply elem_of_cons in Hd as [->|Hd]; [done|]). by apply elem_of_nil in Hd.
  - exists [x61]. split; [apply list_elem_of_here|done].
  - reflexivity.
  - intros mode i Hi. simpl in Hi.
    destruct mode, i as [|[|i]]; try lia; eexists; split; reflexivity.
  - intros mode i Hi. simpl in Hi.
    destruct mode, i as [|[|i]]; try lia; eexists; split; reflexivity.
Defined.

(** C6 on a list of four nil chunks. *)
Lemma Repair_no_chunk_present_witness :
  RepairExtendedDataSquare 0 [aa; aa] [aa; aa] [None; None; None; None] Repetition
  = ([None; None; None; None], Some (Err ErrUnrepairableDataSquare)).
Proof.
  apply (Repair_no_chunk_present 0 [aa; aa] [aa; aa] [None; None; None; None] Repetition).
  intros d Hd.
  repeat (apply elem_of_cons in Hd as [->|Hd]; [reflexivity|]). by apply elem_of_nil in Hd.
Defined.

(** C10 on a list whose first non-nil chunk is empty: [chunkSize] is the
    length of [a]. *)
Lemma Repair_fills_nil_chunks_witness :
  exists filled outcome,
    RepairExtendedDataSquare 4 [aa; aa] [aa; aa] [None; Some []; a; None] Repetition
    = (filled, outcome) /\
    filled !! 0 = Some zero /\ filled !! 1 = Some (Some []) /\
    filled !! 2 = Some a /\ filled !! 3 = Some zero.
Proof.
  destruct (Repair_fills_nil_chunks 4 [aa; aa] [aa; aa] [None; Some []; a; None] Repetition)
    as (pre & c & post & filled & outcome & Hd & Hpre & Hc & Hrun & Hlen & Hnil & Hkeep & _).
  - exists [x61]. split; [|done].
    apply list_elem_of_further, list_elem_of_further, list_elem_of_here.
  - exists filled, outcome. split; [exact Hrun|].
    assert (Hc' : c = [x61]).
    { unfold a in Hd. destruct pre as [|d0 [|d1 [|d2 pre]]]; simplify_eq/=; try done.
      assert (Hlen0 : len a = 0)
        by (apply Hpre; do 2 apply list_elem_of_further; apply list_elem_of_here).
      discriminate Hlen0. }
    subst c. repeat split.
    + by apply (Hnil 0).
    + by apply (Hkeep 1).
    + by apply (Hkeep 2).
    + by apply (Hnil 3).
Defined.

(** C7 on the square of [a]s with its cell [(0, 1)] unknown. *)
Lemma solveCrossword_terminates_witness :
  exists r,
    solveCrossword (2 * 2) [aa; aa] [aa; aa] (square2 Repetition [a; zero] [a; a])
      (mask2 true false true true) = Some r.
Proof.
  destruct (solveCrossword_terminates [aa; aa] [aa; aa]
              (square2 Repetition [a; zero] [a; a]) (mask2 true false true true))
    as (r & Hr & _).
  - reflexivity.
  - reflexivity.
  - simpl. lia.
  - exists r. exact Hr.
Defined.

(** Row 0 of a square whose first row is unknown cannot be decoded; with
    the codec that cannot encode, row 0 of a square that lacks the parity
    chunk of that row is decoded and its parity cannot be rebuilt. *)
Lemma solveCrossword_codec_failures_witness :
  (exists st1,
     solveAxis [aa; aa] [aa; aa] 0 row
       {| theSquare := square2 Repetition [zero; zero] [a; a];
          theMask := mask2 false false true true;
          solved := true; progressMade := false |} = Ok st1 /\
     solved st1 = false) /\
  solveCrossword 1 [aa; aa] [aa; aa] (square2 NoEncoder [a; zero] [a; a])
    (mask2 true false true true)
  = Some (Err (ErrorString "encoder not available")).
Proof.
  split.
  - pose proof (solveCrossword_codec_failures [aa; aa] [aa; aa] 0
                  (square2 Repetition [zero; zero] [a; a]) (mask2 false false true true)
                  [] [(0, column); (1, row); (1, column)] 0 row
                  {| theSquare := square2 Repetition [zero; zero] [a; a];
                     theMask := mask2 false false true true;
                     solved := true; progressMade := false |}
                  [None; None] eq_refl eq_refl eq_refl eq_refl) as [Hdec _].
    destruct (Hdec (ErrorString "too few shares to reconstruct") eq_refl)
      as (st1 & Hax & _ & _ & Hs & _).
    exists st1. split; [exact Hax|exact Hs].
  - pose proof (solveCrossword_codec_failures [aa; aa] [aa; aa] 0
                  (square2 NoEncoder [a; zero] [a; a]) (mask2 true false true true)
                  [] [(0, column); (1, row); (1, column)] 0 row
                  {| theSquare := square2 NoEncoder [a; zero] [a; a];
                     theMask := mask2 true false true true;
                     solved := true; progressMade := false |}
                  [a; None] eq_refl eq_refl eq_refl eq_refl) as [_ Henc].
    exact (proj2 (proj2 (Henc [a] (ErrorString "encoder not available")
                           eq_refl eq_refl eq_refl))).
Defined.

End Concrete.

(** * Further properties of the code *)

(** ** Error messages *)

(** X1.  The message of a byzantine error tells its kind and its index: two
    byzantine-row (or two byzantine-column) errors with the same message
    carry the same number, and no byzantine-row message is a
    byzantine-column message. *)
Theorem byzantine_messages_distinct (n m : nat) :
  (ErrByzantineRow_Error n = ErrByzantineRow_Error m -> n = m) /\
  (ErrByzantineColumn_Error n = ErrByzantineColumn_Error m -> n = m) /\
  ErrByzantineRow_Error n <> ErrByzantineColumn_Error m.
Proof.
  unfold ErrByzantineRow_Error, ErrByzantineColumn_Error. repeat split.
  - intros H. by apply (inj pretty), (inj (String.append "byzantine row: ")).
  - intros H. by apply (inj pretty), (inj (String.append "byzantine column: ")).
  - intros H. simpl in H. discriminate H.
Qed.

(** ** The codec registry *)

Section RegistryProperties.

Context {Codec : Type}.

Implicit Types codecs : gmap string (option Codec).

(** X2.  A codec can be registered under a name that holds no codec, and
    the constructor of that name then returns it: for [LeopardFF16] and for
    [LeopardFF8]. *)
Theorem registerCodec_New (codec : option Codec) codecs :
  (codecs !! LeopardFF16 = None \/ codecs !! LeopardFF16 = Some None ->
   exists codecs', registerCodec LeopardFF16 codec codecs = Ok codecs' /\
                   NewLeoRSFF16Codec codecs' = Ok codec) /\
  (codecs !! LeopardFF8 = None \/ codecs !! LeopardFF8 = Some None ->
   exists codecs', registerCodec LeopardFF8 codec codecs = Ok codecs' /\
                   NewLeoRSFF8Codec codecs' = Ok codec).
Proof.
  unfold registerCodec, NewLeoRSFF16Codec, NewLeoRSFF8Codec.
  split; intros [H|H]; rewrite H; eexists; (split; [reflexivity|]);
    by rewrite lookup_insert_eq.
Qed.

(** X3.  A name under which a (non-nil) codec has been registered cannot be
    registered again: the second registration panics, whatever it
    registers. *)
Theorem registerCodec_twice (ct : string) (c : Codec) (codec' : option Codec)
    codecs codecs' :
  registerCodec ct (Some c) codecs = Ok codecs' ->
  registerCodec ct codec' codecs' = Panic.
Proof.
  unfold registerCodec. intros H.
  assert (Hc : codecs' = <[ct := Some c]> codecs).
  { destruct (codecs !! ct) as [[?|]|]; simplify_eq; done. }
  by rewrite Hc, lookup_insert_eq.
Qed.

(** X4.  A registration under another name does not change what a
    constructor returns; the three names of the package are distinct, so
    that registering [LeopardFF8] or [RSGF8] leaves [NewLeoRSFF16Codec] as
    it was, and registering [LeopardFF16] or [RSGF8] leaves
    [NewLeoRSFF8Codec] as it was. *)
Theorem registerCodec_other_name (ct : string) (codec : option Codec) codecs codecs' :
  registerCodec ct codec codecs = Ok codecs' ->
  (ct <> LeopardFF16 -> NewLeoRSFF16Codec codecs' = NewLeoRSFF16Codec codecs) /\
  (ct <> LeopardFF8 -> NewLeoRSFF8Codec codecs' = NewLeoRSFF8Codec codecs) /\
  LeopardFF16 <> LeopardFF8 /\ RSGF8 <> LeopardFF16 /\ RSGF8 <> LeopardFF8.
Proof.
  unfold registerCodec. intros H.
  assert (Hc : codecs' = <[ct := codec]> codecs).
  { destruct (codecs !! ct) as [[?|]|]; simplify_eq; done. }
  subst codecs'. unfold NewLeoRSFF16Codec, NewLeoRSFF8Codec. repeat split; try done.
  - intros Hne. by rewrite lookup_insert_ne.
  - intros Hne. by rewrite lookup_insert_ne.
Qed.

(** X5.  A constructor panics exactly when its name is not a key of the
    registry; once nil has been registered under the name, the constructor
    returns nil, without a panic, and the name can be registered again. *)
Theorem registerCodec_nil (codec : option Codec) codecs :
  (NewLeoRSFF16Codec codecs = Panic <-> codecs !! LeopardFF16 = None) /\
  (codecs !! LeopardFF16 = None ->
   exists codecs',
     registerCodec LeopardFF16 None codecs = Ok codecs' /\
     NewLeoRSFF16Codec codecs' = Ok None /\
     exists codecs'', registerCodec LeopardFF16 codec codecs' = Ok codecs'' /\
                      NewLeoRSFF16Codec codecs'' = Ok codec).
Proof.
  unfold registerCodec, NewLeoRSFF16Codec. split.
  - destruct (codecs !! LeopardFF16); split; done.
  - intros H. rewrite H. eexists. split; [reflexivity|].
    rewrite lookup_insert_eq. split; [reflexivity|].
    eexists. split; [reflexivity|]. by rewrite lookup_insert_eq.
Qed.

End RegistryProperties.

(** ** The entry point *)

Lemma ceilSqrt_ge (n : nat) : n <= ceilSqrt n * ceilSqrt n.
Proof.
  unfold ceilSqrt. pose proof (Nat.sqrt_spec n (Nat.le_0_l n)) as [Hlo Hhi].
  destruct (Nat.eqb_spec (Nat.sqrt n * Nat.sqrt n) n); lia.
Qed.

Lemma ceilSqrt_least (n w : nat) : n <= w * w -> ceilSqrt n <= w.
Proof.
  intros Hw. unfold ceilSqrt.
  pose proof (Nat.sqrt_spec n (Nat.le_0_l n)) as [Hlo Hhi].
  destruct (Nat.eqb_spec (Nat.sqrt n * Nat.sqrt n) n) as [E|NE].
  - destruct (decide (Nat.sqrt n <= w)) as [|Hgt]; [done|].
    assert (S w <= Nat.sqrt n) by lia.
    assert (S w * S w <= Nat.sqrt n * Nat.sqrt n) by (by apply Nat.mul_le_mono).
    simpl in *. lia.
  - destruct (decide (S (Nat.sqrt n) <= w)) as [|Hgt]; [done|].
    assert (w <= Nat.sqrt n) by lia.
    assert (w * w <= Nat.sqrt n * Nat.sqrt n) by (by apply Nat.mul_le_mono).
    lia.
Qed.

Section EntryPointMore.

Context {CodecType : Type} {codecs : Codecs CodecType} {treeFn : TreeConstructorFn}.

(** X7.  A list none of whose chunks has a byte (each is nil or empty; the
    empty list is one) is refused at once with [ErrUnrepairableDataSquare],
    and is left as it was: [chunkSize] stays zero. *)
Theorem Repair_no_byte_present (fuel : nat) (rowRoots columnRoots data : list chunk)
    (cd : CodecType) :
  (forall d, d ∈ data -> len d = 0) ->
  RepairExtendedDataSquare fuel rowRoots columnRoots data cd
  = (data, Some (Err ErrUnrepairableDataSquare)).
Proof.
  intros Hempty. unfold RepairExtendedDataSquare.
  pose proof (scanData_spec (ceilSqrt (length data)) data) as (_ & _ & _ & Hc).
  destruct (scanData (ceilSqrt (length data)) data) as [bitMat chunkSize].
  simpl in Hc. rewrite (chunkSizeOf_nil data Hempty) in Hc. by subst chunkSize.
Qed.

End EntryPointMore.

(** X8.  After the filling loop the list has no missing data, and when the
    chunks that were present all have [chunkSize] bytes, so has every chunk
    of the list. *)
Theorem fillData_uniform (chunkSize : nat) (data : list chunk) :
  (forall d, d ∈ data -> d <> None -> len d = chunkSize) ->
  noMissingData (fillData chunkSize data) = true /\
  length (fillData chunkSize data) = length data /\
  forall d, d ∈ fillData chunkSize data -> len d = chunkSize.
Proof.
  intros Hsize. split; [|split].
  - unfold noMissingData. apply forallb_forall. intros d Hd%list_elem_of_In.
    apply fillData_no_nil in Hd. by destruct d.
  - unfold fillData. by rewrite length_fmap.
  - unfold fillData. intros d (d' & -> & Hd')%list_elem_of_fmap.
    destruct d' as [c|]; simpl.
    + by apply Hsize.
    + unfold len. simpl. by rewrite length_replicate.
Qed.

(** X9.  The width that the entry point computes is the least whose square
    holds the list, so that every flat index of the first loop lies in the
    mask; and the mask that the loop builds has the bit of a cell set
    exactly when the chunk at its row-major position is not nil. *)
Theorem scanData_mask (data : list chunk) (r c : nat) :
  r < ceilSqrt (length data) -> c < ceilSqrt (length data) ->
  length data <= ceilSqrt (length data) * ceilSqrt (length data) /\
  (forall w, length data <= w * w -> ceilSqrt (length data) <= w) /\
  (Get (scanData (ceilSqrt (length data)) data).1 r c = true <->
   exists d, data !! (r * ceilSqrt (length data) + c) = Some (Some d)).
Proof.
  intros Hr Hc. split; [apply ceilSqrt_ge|]. split; [intros w; apply ceilSqrt_least|].
  rewrite Get_scanData. split; [tauto|].
  intros H. split; [by apply flat_index_lt|done].
Qed.

(** ** The sanity check: what it accepts and what its errors say *)

Lemma foldR_unit_Ok_inv {A : Type} (f : A -> result unit) (l : list A) :
  foldR (fun a _ => f a) l tt = Ok tt -> forall a, a ∈ l -> f a = Ok tt.
Proof.
  induction l as [|x l IH]; simpl; intros H a Ha; [by apply elem_of_nil in Ha|].
  destruct (f x) as [[]| |] eqn:E; simpl in H; try done.
  apply elem_of_cons in Ha as [->|Ha]; [done|by apply IH].
Qed.

Lemma foldR_unit_Err_inv {A : Type} (f : A -> result unit) (l : list A) (e : error) :
  foldR (fun a _ => f a) l tt = Err e -> exists a, a ∈ l /\ f a = Err e.
Proof.
  induction l as [|x l IH]; simpl; intros H; [done|].
  destruct (f x) as [[]| |] eqn:E; simpl in H; try done.
  - destruct (IH H) as (a & Ha & Hfa). exists a. split; [by apply list_elem_of_further|done].
  - injection H as <-. exists x. split; [apply list_elem_of_here|done].
Qed.

Section SanityCheckMore.

Context {CodecType : Type} {codecs : Codecs CodecType} {treeFn : TreeConstructorFn}.

Local Abbreviation ExtendedDataSquare := (@ExtendedDataSquare CodecType).

Variables (rowRoots columnRoots : list chunk) (bitMask : bitMatrix).
Variable eds : ExtendedDataSquare.

Lemma checkRoot_Ok_iff (mode : Mode) (i : nat) :
  checkRoot rowRoots columnRoots bitMask eds mode i = Ok tt <->
  rootAccepted rowRoots columnRoots bitMask eds mode i.
Proof.
  unfold checkRoot, rootAccepted, index.
  destruct mode; simpl;
    (destruct (noMissingData _) eqn:Hn; simpl; [|split; [intros _ ?; done|done]]);
    match goal with |- context [negb ?b = false] => destruct b eqn:Hc end; simpl;
    try (split; [intros _ _ ?; done|done]);
    match goal with |- context [?l !! i] => destruct (l !! i) as [r|] eqn:Hr end; simpl.
  all: try (split; [done|]; intros Hacc; by destruct (Hacc eq_refl eq_refl) as (? & ? & _)).
  all: destruct (bytesEqual r _) eqn:Heq; simpl;
    (split; [try done; intros _ _ _; eauto|]);
    intros Hacc; destruct (Hacc eq_refl eq_refl) as (r' & [= <-] & Heq'); congruence.
Qed.

Lemma checkParity_Ok_iff (mode : Mode) (i : nat) :
  checkParity bitMask eds mode i = Ok tt <-> parityAccepted bitMask eds mode i.
Proof.
  unfold checkParity, parityAccepted, isIncomplete.
  destruct mode;
    match goal with |- context [negb ?b = false] => destruct b eqn:Hc end; simpl;
    try (split; [intros _ ?; done|done]);
    destruct (Encode _ _) as [p| |]; simpl;
    try (split; [done|]; intros Hacc; by destruct (Hacc eq_refl) as (? & ? & _)).
  all: destruct (bytesEqual (flattenChunks p) _) eqn:Heq; simpl;
    (split; [try done; intros _ _; eauto|]);
    intros Hacc; destruct (Hacc eq_refl) as (p' & [= <-] & Heq'); congruence.
Qed.

(** X10.  The sanity check passes exactly when, for every index below the
    width and for both modes, the root test and the parity test let the
    axis pass: an axis that the mask does not mark complete is not
    tested. *)
Theorem prerepairSanityCheck_Ok_iff :
  prerepairSanityCheck rowRoots columnRoots bitMask eds = Ok tt <->
  forall mode i, i < width eds ->
    rootAccepted rowRoots columnRoots bitMask eds mode i /\
    parityAccepted bitMask eds mode i.
Proof.
  split.
  - intros Hok mode i Hi.
    pose proof (foldR_unit_Ok_inv (sanityCheckAt rowRoots columnRoots bitMask eds) _ Hok i)
      as Hat.
    unfold sanityCheckAt in Hat.
    destruct (checkRoot _ _ _ _ row i) as [[]| |] eqn:H1;
      [|by (simpl in Hat; discriminate Hat; apply elem_of_seq; lia)
       |by (simpl in Hat; discriminate Hat; apply elem_of_seq; lia)].
    destruct (checkRoot _ _ _ _ column i) as [[]| |] eqn:H2;
      [|by (simpl in Hat; discriminate Hat; apply elem_of_seq; lia)
       |by (simpl in Hat; discriminate Hat; apply elem_of_seq; lia)].
    destruct (checkParity _ _ row i) as [[]| |] eqn:H3;
      [|by (simpl in Hat; discriminate Hat; apply elem_of_seq; lia)
       |by (simpl in Hat; discriminate Hat; apply elem_of_seq; lia)].
    simpl in Hat. assert (H4 : checkParity bitMask eds column i = Ok tt)
      by (apply Hat, elem_of_seq; lia).
    destruct mode; split;
      first [by apply checkRoot_Ok_iff | by apply checkParity_Ok_iff].
  - intros Hall. apply prerepairSanityCheck_ok. intros k Hk. unfold sanityCheckAt.
    destruct (Hall row k Hk) as [Hr1 Hp1]. destruct (Hall column k Hk) as [Hr2 Hp2].
    apply checkRoot_Ok_iff in Hr1, Hr2. apply checkParity_Ok_iff in Hp1, Hp2.
    rewrite Hr1, Hr2. simpl. rewrite Hp1. simpl. done.
Qed.

Lemma checkRoot_Err_inv (mode : Mode) (i : nat) (e : error) :
  checkRoot rowRoots columnRoots bitMask eds mode i = Err e ->
  isIncomplete bitMask mode i = false /\ sanityFailure rowRoots columnRoots eds mode i e.
Proof.
  unfold checkRoot, sanityFailure, index, isIncomplete.
  destruct mode; simpl;
    (destruct (noMissingData _); simpl; [|done]);
    match goal with |- context [negb ?b = false] => destruct b end; simpl; try done;
    match goal with |- context [?l !! i] => destruct (l !! i) as [r|] eqn:Hr end;
    simpl; try done;
    destruct (bytesEqual r _) eqn:Heq; simpl; try done;
    intros [= <-]; (split; [done|]); left; eauto.
Qed.

Lemma checkParity_Err_inv (mode : Mode) (i : nat) (e : error) :
  checkParity bitMask eds mode i = Err e ->
  isIncomplete bitMask mode i = false /\ sanityFailure rowRoots columnRoots eds mode i e.
Proof.
  unfold checkParity, sanityFailure, isIncomplete.
  destruct mode;
    match goal with |- context [negb ?b = false] => destruct b end; simpl; try done;
    destruct (Encode _ _) as [p| |] eqn:He; simpl; try done.
  all: try (intros [= <-]; split; [done|]; right; left; done).
  all: destruct (bytesEqual (flattenChunks p) _) eqn:Heq; simpl; try done;
    intros [= <-]; (split; [done|]); right; right; eauto.
Qed.

(** X11.  An error of the sanity check concerns an axis, of index below the
    width, that the mask marks complete: it is the bad-root input error of
    that axis, whose computed root differs from the caller's; or the error
    that [Encode] returned on its data half; or the byzantine error of that
    axis, whose parity half differs from the encoding of its data half. *)
Theorem prerepairSanityCheck_Err_inv (e : error) :
  prerepairSanityCheck rowRoots columnRoots bitMask eds = Err e ->
  exists mode i,
    i < width eds /\ isIncomplete bitMask mode i = false /\
    sanityFailure rowRoots columnRoots eds mode i e.
Proof.
  intros Herr.
  apply (foldR_unit_Err_inv (sanityCheckAt rowRoots columnRoots bitMask eds)) in Herr
    as (i & Hi%elem_of_seq & Hat).
  unfold sanityCheckAt in Hat.
  destruct (checkRoot rowRoots columnRoots bitMask eds row i) as [[]| |] eqn:H1;
    cbn [bind] in Hat; try done;
    [|injection Hat as <-; exists row, i; split; [lia|by apply checkRoot_Err_inv]].
  destruct (checkRoot rowRoots columnRoots bitMask eds column i) as [[]| |] eqn:H2;
    cbn [bind] in Hat; try done;
    [|injection Hat as <-; exists column, i; split; [lia|by apply checkRoot_Err_inv]].
  destruct (checkParity bitMask eds row i) as [[]| |] eqn:H3;
    cbn [bind] in Hat; try done;
    [|injection Hat as <-; exists row, i; split; [lia|by apply checkParity_Err_inv]].
  exists column, i. split; [lia|by apply checkParity_Err_inv].
Qed.

End SanityCheckMore.

(** ** The solver: what an axis step writes *)

Section SquareWrites.

Context {CodecType : Type} {codecs : Codecs CodecType} {treeFn : TreeConstructorFn}.

Local Abbreviation ExtendedDataSquare := (@ExtendedDataSquare CodecType).
Local Abbreviation solverState := (@solverState CodecType).

Lemma setCell_rows (eds : ExtendedDataSquare) (x y : nat) (ch : chunk) :
  length (squareRow (setCell eds x y ch)) = length (squareRow eds).
Proof. unfold setCell. simpl. by rewrite length_insert. Qed.

Lemma setCell_Row_length (eds : ExtendedDataSquare) (x y r : nat) (ch : chunk) :
  length (Row (setCell eds x y ch) r) = length (Row eds r).
Proof.
  unfold Row at 1. simpl. destruct (decide (r = x)) as [->|Hne].
  - destruct (decide (x < length (squareRow eds))) as [Hx|Hx].
    + rewrite list_lookup_insert_eq by done. simpl. by rewrite length_insert.
    + rewrite list_insert_ge by lia. done.
  - rewrite list_lookup_insert_ne by done. done.
Qed.

Lemma setCell_getCell_same (eds : ExtendedDataSquare) (x y : nat) (ch : chunk) :
  x < length (squareRow eds) -> y < length (Row eds x) ->
  getCell (setCell eds x y ch) x y = ch.
Proof.
  intros Hx Hy. unfold getCell, Row at 1. simpl.
  rewrite list_lookup_insert_eq by done. simpl.
  by rewrite list_lookup_insert_eq.
Qed.

Lemma setCell_getCell_other (eds : ExtendedDataSquare) (x y r c : nat) (ch : chunk) :
  (r, c) <> (x, y) -> getCell (setCell eds x y ch) r c = getCell eds r c.
Proof.
  intros Hne. unfold getCell. f_equal. unfold Row at 1. simpl.
  destruct (decide (r = x)) as [->|Hr].
  - destruct (decide (x < length (squareRow eds))) as [Hx|Hx].
    + rewrite list_lookup_insert_eq by done. simpl.
      rewrite list_lookup_insert_ne; [done|]. intros ->. done.
    + rewrite list_insert_ge by lia. done.
  - rewrite list_lookup_insert_ne by done. done.
Qed.

Lemma zip_seq_snoc {A : Type} (l : list A) (x : A) :
  zip (seq 0 (length (l ++ [x]))) (l ++ [x])
  = zip (seq 0 (length l)) l ++ [(length l, x)].
Proof.
  rewrite length_app. simpl. rewrite seq_app. simpl.
  rewrite zip_with_app by (by rewrite length_seq). done.
Qed.

Lemma insertShares_snoc (eds : ExtendedDataSquare) (mode : Mode) (i : nat)
    (shares : list chunk) (s : chunk) :
  insertShares eds mode i (shares ++ [s])
  = setCell (insertShares eds mode i shares)
            (cellOf mode i (length shares)).1 (cellOf mode i (length shares)).2 s.
Proof.
  unfold insertShares. rewrite zip_seq_snoc, foldl_app. simpl. by destruct mode.
Qed.

Lemma insertShares_rows (eds : ExtendedDataSquare) (mode : Mode) (i : nat)
    (shares : list chunk) :
  length (squareRow (insertShares eds mode i shares)) = length (squareRow eds) /\
  forall r, length (Row (insertShares eds mode i shares) r) = length (Row eds r).
Proof.
  induction shares as [|s shares IH] using rev_ind; [done|].
  rewrite insertShares_snoc. destruct IH as [IH1 IH2]. split.
  - by rewrite setCell_rows.
  - intros r. by rewrite setCell_Row_length.
Qed.

Lemma insertShares_fields (eds : ExtendedDataSquare) (mode : Mode) (i : nat)
    (shares : list chunk) :
  originalDataWidth (insertShares eds mode i shares) = originalDataWidth eds /\
  codec (insertShares eds mode i shares) = codec eds.
Proof.
  induction shares as [|s shares IH] using rev_ind; [done|].
  rewrite insertShares_snoc. done.
Qed.

(** The write-back leaves the cells off the axis as they were. *)
Lemma insertShares_other (eds : ExtendedDataSquare) (mode : Mode) (i : nat)
    (shares : list chunk) (r c : nat) :
  ~ onAxis mode i r c ->
  getCell (insertShares eds mode i shares) r c = getCell eds r c.
Proof.
  intros Hoff. induction shares as [|s shares IH] using rev_ind; [done|].
  rewrite insertShares_snoc, setCell_getCell_other; [done|].
  intros E. apply Hoff. destruct mode; simpl in *; congruence.
Qed.

(** It writes [shares[p]] into the cell at position [p] of the axis, and
    leaves the cells of the axis beyond the vector as they were. *)
Lemma insertShares_on (eds : ExtendedDataSquare) (mode : Mode) (i p : nat)
    (shares : list chunk) :
  edsWf eds -> i < width eds -> p < width eds ->
  getCell (insertShares eds mode i shares) (cellOf mode i p).1 (cellOf mode i p).2
  = default (getCell eds (cellOf mode i p).1 (cellOf mode i p).2) (shares !! p).
Proof.
  intros [Hrows Hlen] Hi Hp. induction shares as [|s shares IH] using rev_ind; [done|].
  rewrite insertShares_snoc.
  destruct (insertShares_rows eds mode i shares) as [Hr1 Hr2].
  destruct (decide (p = length shares)) as [->|Hne].
  - rewrite list_lookup_middle by done. simpl.
    apply setCell_getCell_same.
    + rewrite Hr1, Hrows. by destruct mode.
    + rewrite Hr2, Hlen; by destruct mode.
  - rewrite setCell_getCell_other.
    + rewrite IH. destruct (decide (p < length shares)).
      * by rewrite lookup_app_l.
      * rewrite !(lookup_ge_None_2) by (rewrite ?length_app; simpl; lia). done.
    + intros E. apply Hne. destruct mode; simpl in *; congruence.
Qed.

End SquareWrites.

(** ** The solver: the outcomes of an axis step *)

Section AxisStep.

Context {CodecType : Type} {codecs : Codecs CodecType} {treeFn : TreeConstructorFn}.

Local Abbreviation ExtendedDataSquare := (@ExtendedDataSquare CodecType).
Local Abbreviation solverState := (@solverState CodecType).

Variables rowRoots columnRoots : list chunk.

Lemma prepareShares_not_Err (eds : ExtendedDataSquare) (bm : bitMatrix) (mode : Mode)
    (i : nat) (e : error) :
  prepareShares eds bm mode i <> Err e.
Proof.
  unfold prepareShares. generalize (seq 0 (width eds)) as js.
  induction js as [|j js IH]; simpl; [done|].
  assert (Hj : prepareShare eds bm mode i j <> Err e).
  { unfold prepareShare, index. destruct mode; destruct (Get bm _ _); try done;
      by destruct (_ !! j). }
  destruct (prepareShare eds bm mode i j) as [d| |]; simpl; [|by intros [= ->]|done].
  destruct (mapR (prepareShare eds bm mode i) js) as [ds| |]; simpl; done.
Qed.

(** The loop over the orthogonal axes passes. *)
Lemma checkOrthogonal_loop (bm : bitMatrix) (mode : Mode) (i : nat)
    (rebuiltShares : list chunk) (js : list nat) :
  i < squareSize bm ->
  foldR (checkOrthogonal rowRoots columnRoots bm mode i rebuiltShares) js tt = Ok tt.
Proof.
  intros Hi. induction js as [|j js IH]; simpl; [done|].
  by rewrite (checkOrthogonal_skips rowRoots columnRoots bm mode i j rebuiltShares Hi).
Qed.

Lemma verifyAgainstRoots_mismatch (mode : Mode) (i : nat) (shares : list chunk) (r : chunk) :
  rootsOf rowRoots columnRoots mode !! i = Some r ->
  bytesEqual (axisRoot i shares) r = false ->
  verifyAgainstRoots rowRoots columnRoots mode i shares = Err (ErrByzantine mode i).
Proof.
  intros Hr Hne. unfold verifyAgainstRoots, index.
  destruct mode; simpl in *; rewrite Hr; simpl; by rewrite Hne.
Qed.

Lemma verifyAgainstRoots_match (mode : Mode) (i : nat) (shares : list chunk) (r : chunk) :
  rootsOf rowRoots columnRoots mode !! i = Some r ->
  bytesEqual (axisRoot i shares) r = true ->
  verifyAgainstRoots rowRoots columnRoots mode i shares = Ok (axisRoot i shares).
Proof.
  intros Hr Heq. unfold verifyAgainstRoots, index.
  destruct mode; simpl in *; rewrite Hr; simpl; by rewrite Heq.
Qed.

Lemma verifyAgainstRoots_Err_inv (mode : Mode) (i : nat) (shares : list chunk) (e : error) :
  verifyAgainstRoots rowRoots columnRoots mode i shares = Err e ->
  exists r, rootsOf rowRoots columnRoots mode !! i = Some r /\
            bytesEqual (axisRoot i shares) r = false /\ e = ErrByzantine mode i.
Proof.
  unfold verifyAgainstRoots, index.
  destruct mode; simpl;
    match goal with |- context [?l !! i] => destruct (l !! i) as [r|] end; simpl; try done;
    destruct (bytesEqual _ r) eqn:Heq; simpl; try done; intros [= <-]; eauto.
Qed.

(** X12.  An error of the step for axis [i] of [mode] is the error that
    [Encode] returned while rebuilding the parity of that axis, or the
    byzantine error of that very axis, the root of the rebuilt vector
    differing from the caller's root: the step never returns the byzantine
    error of an orthogonal axis, and a failure of [Decode] is no error. *)
Theorem solveAxis_Err_inv (i : nat) (mode : Mode) (st : solverState) (e : error) :
  i < squareSize (theMask st) ->
  solveAxis rowRoots columnRoots i mode st = Err e ->
  isIncomplete (theMask st) mode i = true /\
  exists shares decoded,
    prepareShares (theSquare st) (theMask st) mode i = Ok shares /\
    Decode shares (codec (theSquare st)) = Ok decoded /\
    ((isExtendedPartIncomplete (theSquare st) (theMask st) mode i = true /\
      Encode decoded (codec (theSquare st)) = Err e) \/
     (exists rebuiltShares r,
        extendShares (theSquare st)
          (isExtendedPartIncomplete (theSquare st) (theMask st) mode i) shares decoded
        = Ok rebuiltShares /\
        rootsOf rowRoots columnRoots mode !! i = Some r /\
        bytesEqual (axisRoot i rebuiltShares) r = false /\
        e = ErrByzantine mode i)).
Proof.
  intros Hi. unfold solveAxis.
  destruct (isIncomplete (theMask st) mode i); [|done].
  destruct (prepareShares _ _ _ _) as [shares|e'|] eqn:Hsh; simpl; try done;
    [|by destruct (prepareShares_not_Err _ _ _ _ _ Hsh)].
  destruct (Decode shares _) as [decoded| |] eqn:Hdec; try done.
  destruct (extendShares _ _ shares decoded) as [rebuilt|e'|] eqn:Hext; simpl; try done.
  - destruct (verifyAgainstRoots _ _ _ _ rebuilt) as [root|e'|] eqn:Hver; simpl; try done.
    + by rewrite checkOrthogonal_loop.
    + intros [= <-]. split; [done|]. exists shares, decoded. repeat split; try done.
      right. apply verifyAgainstRoots_Err_inv in Hver as (r & Hr & Hne & ->).
      exists rebuilt, r. done.
  - intros [= <-]. split; [done|]. exists shares, decoded. repeat split; try done.
    left. unfold extendShares in Hext.
    destruct (isExtendedPartIncomplete _ _ _ _); [|done].
    split; [done|]. by destruct (Encode decoded _).
Qed.

(** X13.  In a sweep that has reached an incomplete axis and rebuilt its
    vector: if the root of the vector differs from the caller's root for the
    axis, the byzantine error of that axis is at once the result of the
    step, of the sweep and of [solveCrossword]; the mismatch is not retried
    in a later sweep. *)
Theorem solveCrossword_root_mismatch (fuel : nat) (eds0 : ExtendedDataSquare)
    (bm0 : bitMatrix) (pre post : list (nat * Mode)) (i : nat) (mode : Mode)
    (st : solverState) (shares decoded rebuiltShares : list chunk) (r : chunk) :
  sweepAxes (width eds0) = pre ++ (i, mode) :: post ->
  sweepOver rowRoots columnRoots pre
    {| theSquare := eds0; theMask := bm0; solved := true; progressMade := false |} = Ok st ->
  isIncomplete (theMask st) mode i = true ->
  prepareShares (theSquare st) (theMask st) mode i = Ok shares ->
  Decode shares (codec (theSquare st)) = Ok decoded ->
  extendShares (theSquare st)
    (isExtendedPartIncomplete (theSquare st) (theMask st) mode i) shares decoded
  = Ok rebuiltShares ->
  rootsOf rowRoots columnRoots mode !! i = Some r ->
  bytesEqual (axisRoot i rebuiltShares) r = false ->
  solveAxis rowRoots columnRoots i mode st = Err (ErrByzantine mode i) /\
  sweep rowRoots columnRoots eds0 bm0 = Err (ErrByzantine mode i) /\
  solveCrossword (S fuel) rowRoots columnRoots eds0 bm0 = Some (Err (ErrByzantine mode i)).
Proof.
  intros Haxes Hpre Hinc Hsh Hdec Hext Hr Hne.
  assert (Hax : solveAxis rowRoots columnRoots i mode st = Err (ErrByzantine mode i)).
  { unfold solveAxis. rewrite Hinc, Hsh. simpl. rewrite Hdec, Hext. simpl.
    by rewrite (verifyAgainstRoots_mismatch mode i rebuiltShares r Hr Hne). }
  assert (Hs : sweep rowRoots columnRoots eds0 bm0 = Err (ErrByzantine mode i)).
  { unfold sweep. rewrite Haxes. unfold sweepOver in *.
    rewrite foldR_app, Hpre. simpl. by rewrite Hax. }
  repeat split; try done. simpl. by rewrite Hs.
Qed.

(** X14.  When the root of the rebuilt vector equals the caller's root, the
    step commits: progress is made and [solved] is as it was; the mask knows
    the cells that it knew and those of the axis; the square has
    [rebuiltShares[p]] at position [p] of the axis (and what it had, where
    the vector is shorter than the axis), and its other cells as they
    were. *)
Theorem solveAxis_commit (i : nat) (mode : Mode) (st : solverState)
    (shares decoded rebuiltShares : list chunk) (r : chunk) :
  bmWf (theMask st) -> squareSize (theMask st) = width (theSquare st) ->
  edsWf (theSquare st) -> i < width (theSquare st) ->
  isIncomplete (theMask st) mode i = true ->
  prepareShares (theSquare st) (theMask st) mode i = Ok shares ->
  Decode shares (codec (theSquare st)) = Ok decoded ->
  extendShares (theSquare st)
    (isExtendedPartIncomplete (theSquare st) (theMask st) mode i) shares decoded
  = Ok rebuiltShares ->
  rootsOf rowRoots columnRoots mode !! i = Some r ->
  bytesEqual (axisRoot i rebuiltShares) r = true ->
  exists st1,
    solveAxis rowRoots columnRoots i mode st = Ok st1 /\
    progressMade st1 = true /\ solved st1 = solved st /\
    (forall x y, x < width (theSquare st) -> y < width (theSquare st) ->
       (Get (theMask st1) x y = true <-> Get (theMask st) x y = true \/ onAxis mode i x y)) /\
    (forall x y, ~ onAxis mode i x y ->
       getCell (theSquare st1) x y = getCell (theSquare st) x y) /\
    (forall p, p < width (theSquare st) ->
       getCell (theSquare st1) (cellOf mode i p).1 (cellOf mode i p).2
       = default (getCell (theSquare st) (cellOf mode i p).1 (cellOf mode i p).2)
                 (rebuiltShares !! p)).
Proof.
  intros Hwf Hsz Heds Hi Hinc Hsh Hdec Hext Hr Heq.
  exists (commitAxis st mode i rebuiltShares). split; [|split; [done|split; [done|]]].
  - unfold solveAxis. rewrite Hinc, Hsh. simpl. rewrite Hdec, Hext. simpl.
    rewrite (verifyAgainstRoots_match mode i rebuiltShares r Hr Heq). simpl.
    rewrite checkOrthogonal_loop by lia. done.
  - unfold commitAxis. simpl. split; [|split].
    + intros x y Hx Hy. rewrite <- Hsz. apply Get_setVectorMask; try done; lia.
    + intros x y Hoff. by apply insertShares_other.
    + intros p Hp. by apply insertShares_on.
Qed.

End AxisStep.

(** ** The solver: its results *)

Section SolverResults.

Context {CodecType : Type} {codecs : Codecs CodecType} {treeFn : TreeConstructorFn}.

Local Abbreviation ExtendedDataSquare := (@ExtendedDataSquare CodecType).
Local Abbreviation solverState := (@solverState CodecType).

Variables rowRoots columnRoots : list chunk.

(** A run of axis steps in which every decoding fails changes neither the
    square nor the mask, and makes no progress. *)
Lemma sweepOver_decodes_fail (l : list (nat * Mode)) (st : solverState) :
  progressMade st = false ->
  (forall i mode, (i, mode) ∈ l -> isIncomplete (theMask st) mode i = true ->
     exists shares e,
       prepareShares (theSquare st) (theMask st) mode i = Ok shares /\
       Decode shares (codec (theSquare st)) = Err e) ->
  exists st',
    sweepOver rowRoots columnRoots l st = Ok st' /\
    theSquare st' = theSquare st /\ theMask st' = theMask st /\
    progressMade st' = false /\
    (solved st = false \/
     (exists i mode, (i, mode) ∈ l /\ isIncomplete (theMask st) mode i = true) ->
     solved st' = false).
Proof.
  revert st. induction l as [|[i mode] l IH]; intros st Hp Hfail.
  - exists st. repeat split; try done. intros [H|(i & mode & Hin & _)]; [done|].
    by apply elem_of_nil in Hin.
  - unfold sweepOver in *. simpl.
    destruct (isIncomplete (theMask st) mode i) eqn:Hinc.
    + destruct (Hfail i mode (list_elem_of_here _ _) Hinc) as (shares & e & Hsh & Hdec).
      rewrite (solveAxis_decode_failure rowRoots columnRoots i mode st shares e Hinc Hsh Hdec).
      simpl. destruct (IH (markUnsolved st)) as (st' & Hrun & Hsq & Hm & Hp' & Hs); [done| |].
      * intros j m Hin Hj. simpl in *. apply Hfail; [by apply list_elem_of_further|done].
      * exists st'. repeat split; try done. intros _. apply Hs. by left.
    + rewrite (solveAxis_complete rowRoots columnRoots i mode st Hinc). simpl.
      destruct (IH st) as (st' & Hrun & Hsq & Hm & Hp' & Hs); [done| |].
      * intros j m Hin Hj. apply Hfail; [by apply list_elem_of_further|done].
      * exists st'. repeat split; try done. intros [H|(j & m & Hin & Hj)]; apply Hs.
        -- by left.
        -- right. apply elem_of_cons in Hin as [[= -> ->]|Hin]; [congruence|eauto].
Qed.

(** X15.  When some axis is incomplete and [Decode] fails on the shares of
    every incomplete axis, [solveCrossword] returns
    [ErrUnrepairableDataSquare] after one sweep. *)
Theorem solveCrossword_unrepairable (fuel : nat) (eds : ExtendedDataSquare)
    (bm : bitMatrix) :
  (exists i mode, i < width eds /\ isIncomplete bm mode i = true) ->
  (forall i mode, i < width eds -> isIncomplete bm mode i = true ->
     exists shares e,
       prepareShares eds bm mode i = Ok shares /\ Decode shares (codec eds) = Err e) ->
  solveCrossword (S fuel) rowRoots columnRoots eds bm
  = Some (Err ErrUnrepairableDataSquare).
Proof.
  intros (i & mode & Hi & Hinc) Hfail. simpl. unfold sweep.
  destruct (sweepOver_decodes_fail (sweepAxes (width eds))
              {| theSquare := eds; theMask := bm; solved := true; progressMade := false |})
    as (st' & Hrun & _ & _ & Hp & Hs); [done| |].
  - intros j m Hin%sweepAxes_elem Hj. by apply Hfail.
  - rewrite Hrun, Hs, Hp; [done|]. right. exists i, mode. split; [|done].
    by apply sweepAxes_elem.
Qed.

(** X16.  On a square all of whose axes the mask marks complete,
    [solveCrossword] returns the square and the mask as they are after one
    sweep, whatever the roots: it decodes nothing and verifies no root. *)
Theorem solveCrossword_complete (fuel : nat) (eds : ExtendedDataSquare) (bm : bitMatrix) :
  (forall mode i, i < width eds -> isIncomplete bm mode i = false) ->
  solveCrossword (S fuel) rowRoots columnRoots eds bm = Some (Ok (eds, bm)).
Proof.
  intros Hall. simpl. by rewrite (sweep_complete rowRoots columnRoots eds bm Hall).
Qed.

Lemma sweep_fields (eds : ExtendedDataSquare) (bm : bitMatrix) (st : solverState) :
  sweep rowRoots columnRoots eds bm = Ok st ->
  originalDataWidth (theSquare st) = originalDataWidth eds /\
  codec (theSquare st) = codec eds.
Proof.
  unfold sweep, sweepOver. intros Hs.
  eapply (foldR_prefix_inv
            (fun _ (s : solverState) =>
               originalDataWidth (theSquare s) = originalDataWidth eds /\
               codec (theSquare s) = codec eds)); [| |exact Hs].
  - done.
  - intros pre [i mode] post s s1 _ [Ho Hc] Hstep.
    apply solveAxis_Ok_inv in Hstep as [[_ ->]|[[_ ->]|[_ [rebuilt ->]]]]; try done.
    simpl. destruct (insertShares_fields (theSquare s) mode i rebuilt) as [-> ->]. done.
Qed.

(** X17.  When [solveCrossword] returns a square, it has the width, the
    original data width and the codec of the square it was given, and the
    mask it leaves has the size of the mask it was given and knows every
    cell that this one knew: no bit is ever cleared. *)
Theorem solveCrossword_preserves (fuel : nat) (eds eds' : ExtendedDataSquare)
    (bm bm' : bitMatrix) :
  bmWf bm -> squareSize bm = width eds ->
  solveCrossword fuel rowRoots columnRoots eds bm = Some (Ok (eds', bm')) ->
  width eds' = width eds /\
  originalDataWidth eds' = originalDataWidth eds /\
  codec eds' = codec eds /\
  squareSize bm' = squareSize bm /\
  forall r c, r < width eds -> c < width eds -> Get bm r c = true -> Get bm' r c = true.
Proof.
  revert eds bm. induction fuel as [|fuel IH]; intros eds bm Hwf Hsz Hrun; [done|].
  simpl in Hrun.
  destruct (sweep rowRoots columnRoots eds bm) as [st| |] eqn:Hs; try done.
  pose proof (sweep_sweepInv _ _ eds bm st Hwf Hsz Hs) as Hinv.
  pose proof (sweep_fields eds bm st Hs) as [Ho Hc].
  destruct (inv_le _ _ _ _ Hinv) as [Hsize Hle].
  destruct (solved st).
  - injection Hrun as <- <-. repeat split; try done.
    + apply (inv_width _ _ _ _ Hinv).
    + intros r c Hr Hc'. apply Hle; lia.
  - destruct (progressMade st); simpl in Hrun; [|done].
    destruct (IH (theSquare st) (theMask st)) as (Hw' & Ho' & Hc' & Hs' & Hle'); try done.
    + apply (inv_wf _ _ _ _ Hinv).
    + by rewrite (inv_size _ _ _ _ Hinv), (inv_width _ _ _ _ Hinv).
    + rewrite (inv_width _ _ _ _ Hinv) in Hw', Hle'.
      repeat split; try congruence.
      intros r c Hr Hcc Hg. apply Hle'; try done. apply Hle; try lia. done.
Qed.

End SolverResults.

(** ** The repair of one axis *)

Section OneAxis.

Context {CodecType : Type} {codecs : Codecs CodecType} {treeFn : TreeConstructorFn}.

Local Abbreviation ExtendedDataSquare := (@ExtendedDataSquare CodecType).
Local Abbreviation solverState := (@solverState CodecType).

Variables rowRoots columnRoots : list chunk.




End OneAxis.

(** ** The further properties on concrete inputs *)

Section ConcreteMore.

Import Replica.

(** X2 on the empty registry. *)
Lemma registerCodec_New_witness :
  (exists codecs', registerCodec LeopardFF16 (Some Repetition) ∅ = Ok codecs' /\
                   NewLeoRSFF16Codec codecs' = Ok (Some Repetition)) /\
  (exists codecs', registerCodec LeopardFF8 (Some NoEncoder) ∅ = Ok codecs' /\
                   NewLeoRSFF8Codec codecs' = Ok (Some NoEncoder)).
Proof.
  split.
  - apply (proj1 (registerCodec_New (Some Repetition) ∅)). left. apply lookup_empty.
  - apply (proj2 (registerCodec_New (Some NoEncoder) ∅)). left. apply lookup_empty.
Defined.

(** X3: a second registration of [LeopardFF16]. *)
Lemma registerCodec_twice_witness :
  registerCodec LeopardFF16 (Some NoEncoder) (<[LeopardFF16 := Some Repetition]> ∅) = Panic.
Proof.
  apply (registerCodec_twice LeopardFF16 Repetition (Some NoEncoder) ∅).
  unfold registerCodec. by rewrite lookup_empty.
Defined.

(** X4: registering [RSGF8] next to [LeopardFF16]. *)
Lemma registerCodec_other_name_witness :
  NewLeoRSFF16Codec (<[RSGF8 := Some NoEncoder]> (<[LeopardFF16 := Some Repetition]> ∅))
  = NewLeoRSFF16Codec (<[LeopardFF16 := Some Repetition]> ∅).
Proof.
  apply (registerCodec_other_name RSGF8 (Some NoEncoder)
           (<[LeopardFF16 := Some Repetition]> ∅)).
  - unfold registerCodec. rewrite lookup_insert_ne by done. by rewrite lookup_empty.
  - done.
Defined.

(** X5 on the empty registry. *)
Lemma registerCodec_nil_witness :
  exists codecs',
    registerCodec LeopardFF16 None (∅ : gmap string (option ReplicaCodec)) = Ok codecs' /\
    NewLeoRSFF16Codec codecs' = Ok None /\
    exists codecs'', registerCodec LeopardFF16 (Some Repetition) codecs' = Ok codecs'' /\
                     NewLeoRSFF16Codec codecs'' = Ok (Some Repetition).
Proof.
  apply (proj2 (registerCodec_nil (Some Repetition) ∅)). apply lookup_empty.
Defined.

(** X7 on a list of an empty chunk and a nil chunk. *)
Lemma Repair_no_byte_present_witness :
  RepairExtendedDataSquare 4 [aa; aa] [aa; aa] [Some []; None] Repetition
  = ([Some []; None], Some (Err ErrUnrepairableDataSquare)).
Proof.
  apply (Repair_no_byte_present 4 [aa; aa] [aa; aa] [Some []; None] Repetition).
  intros d Hd.
  repeat (apply elem_of_cons in Hd as [->|Hd]; [reflexivity|]). by apply elem_of_nil in Hd.
Defined.

(** X8 on a list with one chunk missing. *)
Lemma fillData_uniform_witness :
  noMissingData (fillData 1 [None; a; a; a]) = true /\
  length (fillData 1 [None; a; a; a]) = 4 /\
  forall d, d ∈ fillData 1 [None; a; a; a] -> len d = 1.
Proof.
  apply (fillData_uniform 1 [None; a; a; a]).
  intros d Hd Hne.
  repeat (apply elem_of_cons in Hd as [->|Hd]; [done|]). by apply elem_of_nil in Hd.
Defined.

(** X9: the bit of the missing cell [(0, 1)]. *)
Lemma scanData_mask_witness :
  Get (scanData (ceilSqrt (length [a; None; a; a])) [a; None; a; a]).1 0 1 = true <->
  exists d, [a; None; a; a] !! (0 * ceilSqrt (length [a; None; a; a]) + 1) = Some (Some d).
Proof.
  apply (scanData_mask [a; None; a; a] 0 1); cbn [length]; rewrite ceilSqrt_4; lia.
Defined.

(** X11 on the square whose row 0 has a wrong parity. *)
Lemma prerepairSanityCheck_Err_inv_witness :
  exists mode i,
    i < 2 /\ isIncomplete (mask2 true true true true) mode i = false /\
    sanityFailure [ab; aa] [aa; ba] (square2 Repetition [a; b] [a; a]) mode i
      (ErrByzantineRow 0).
Proof.
  apply (prerepairSanityCheck_Err_inv [ab; aa] [aa; ba] (mask2 true true true true)
           (square2 Repetition [a; b] [a; a]) (ErrByzantineRow 0)).
  reflexivity.
Defined.

(** X12: row 0 of the square of [a]s, cell [(0, 0)] unknown, rebuilt short
    of its parity. *)
Lemma solveAxis_Err_inv_witness :
  isIncomplete (mask2 false true true true) row 0 = true.
Proof.
  apply (solveAxis_Err_inv [aa; aa] [aa; aa] 0 row
           {| theSquare := square2 Repetition [zero; a] [a; a];
              theMask := mask2 false true true true;
              solved := true; progressMade := false |} (ErrByzantineRow 0)).
  - simpl. lia.
  - reflexivity.
Defined.

(** X13 on the same square. *)
Lemma solveCrossword_root_mismatch_witness :
  solveCrossword 1 [aa; aa] [aa; aa] (square2 Repetition [zero; a] [a; a])
    (mask2 false true true true)
  = Some (Err (ErrByzantineRow 0)).
Proof.
  exact (proj2 (proj2
    (solveCrossword_root_mismatch [aa; aa] [aa; aa] 0
       (square2 Repetition [zero; a] [a; a]) (mask2 false true true true)
       [] [(0, column); (1, row); (1, column)] 0 row
       {| theSquare := square2 Repetition [zero; a] [a; a];
          theMask := mask2 false true true true;
          solved := true; progressMade := false |}
       [None; a] [a] [a] aa eq_refl eq_refl eq_refl eq_refl eq_refl eq_refl eq_refl
       eq_refl))).
Defined.

(** X14: row 0 of the square of [a]s, its parity cell [(0, 1)] unknown. *)
Lemma solveAxis_commit_witness :
  exists st1,
    solveAxis [aa; aa] [aa; aa] 0 row
      {| theSquare := square2 Repetition [a; zero] [a; a];
         theMask := mask2 true false true true;
         solved := true; progressMade := false |} = Ok st1 /\
    progressMade st1 = true /\
    getCell (theSquare st1) 0 1 = a /\ getCell (theSquare st1) 1 0 = a.
Proof.
  destruct (solveAxis_commit [aa; aa] [aa; aa] 0 row
              {| theSquare := square2 Repetition [a; zero] [a; a];
                 theMask := mask2 true false true true;
                 solved := true; progressMade := false |}
              [a; None] [a] [a; a] aa)
    as (st1 & Hax & Hp & _ & _ & Hoff & Hon); try reflexivity.
  - split; [reflexivity|]. intros [|[|k]] Hk; simpl in *; try reflexivity; lia.
  - simpl. lia.
  - exists st1. split; [exact Hax|]. split; [exact Hp|]. split.
    + apply (Hon 1). simpl. lia.
    + rewrite (Hoff 1 0); [reflexivity|]. simpl. lia.
Defined.

(** X15 on a square none of whose cells is known. *)
Lemma solveCrossword_unrepairable_witness :
  solveCrossword 1 [aa; aa] [aa; aa] (square2 Repetition [zero; zero] [zero; zero])
    (mask2 false false false false)
  = Some (Err ErrUnrepairableDataSquare).
Proof.
  apply (solveCrossword_unrepairable [aa; aa] [aa; aa] 0
           (square2 Repetition [zero; zero] [zero; zero]) (mask2 false false false false)).
  - exists 0, row. split; [simpl; lia|reflexivity].
  - intros [|[|i]] mode Hi _; simpl in Hi; try lia;
      exists [None; None], (ErrorString "too few shares to reconstruct");
      destruct mode; split; reflexivity.
Defined.

(** X16 on the square of [a]s, with roots that are not its own. *)
Lemma solveCrossword_complete_witness :
  solveCrossword 1 [zz; zz] [zz; zz] (square2 Repetition [a; a] [a; a])
    (mask2 true true true true)
  = Some (Ok (square2 Repetition [a; a] [a; a], mask2 true true true true)).
Proof.
  apply (solveCrossword_complete [zz; zz] [zz; zz] 0
           (square2 Repetition [a; a] [a; a]) (mask2 true true true true)).
  intros mode [|[|i]] Hi; simpl in Hi; try lia; destruct mode; reflexivity.
Defined.

(** X17 on the repair of the cell [(0, 1)]. *)
Lemma solveCrossword_preserves_witness :
  width (square2 Repetition [a; a] [a; a]) = width (square2 Repetition [a; zero] [a; a]) /\
  squareSize (mask2 true true true true) = squareSize (mask2 true false true true) /\
  (Get (mask2 true false true true) 1 0 = true ->
   Get (mask2 true true true true) 1 0 = true).
Proof.
  destruct (solveCrossword_preserves [aa; aa] [aa; aa] 4
              (square2 Repetition [a; zero] [a; a]) (square2 Repetition [a; a] [a; a])
              (mask2 true false true true) (mask2 true true true true))
    as (Hw & _ & _ & Hs & Hle).
  - reflexivity.
  - reflexivity.
  - reflexivity.
  - split; [exact Hw|]. split; [exact Hs|]. apply Hle; simpl; lia.
Defined.


End ConcreteMore.
